(** * xsync: the Map and Set containers of map.go and set.go

    A shallow embedding of the two stores.  A method of [*Map] or [*Set]
    becomes a function from the store before the call to its result and the
    store after it.  Every method body runs between [mx.Lock]/[mx.RLock] and
    the matching unlock, so a body is one atomic step on the record; the
    mutex itself has no field here.  [GetOrSet] is the one method that leaves
    the lock in the middle: its supplier runs between two critical sections
    and is given the store.

    Go leaves the order of [range] over a map unspecified.  A method that
    ranges takes the order of that one traversal as an argument [ord]; the
    statements that depend on it assume that [ord] lists the entries of the
    map once each. *)

From Stdlib Require Import ZArith NArith Lia Ascii String List.
From stdpp Require Import base option list gmap fin_maps strings pretty sorting.

Local Open Scope Z_scope.

(** ** Go values *)

(** [uint64]: a natural number below [2^64]; [++] wraps around. *)
Definition uint64_modulus : N := (2 ^ 64)%N.

Definition incr64 (v : N) : N := ((v + 1) mod uint64_modulus)%N.

(** The [error] interface, by its message. *)
Definition error : Type := string.

(** The zero value of a type: what [var x T] holds and what a map yields for
    an absent key. *)
Class Zero (A : Type) : Type := zero : A.

#[export] Instance Zero_Z : Zero Z := 0.
#[export] Instance Zero_string : Zero string := EmptyString.
#[export] Instance Zero_unit : Zero unit := tt.

(** [v, ok := m[key]] *)
Definition comma_ok {A : Type} `{Zero A} (r : option A) : A * bool :=
  match r with
  | Some v => (v, true)
  | None => (zero, false)
  end.

(** What a call ends in: a return, or a [panic]. *)
Inductive outcome (A : Type) : Type :=
| Returned (a : A)
| Panicked.

Arguments Returned {A} a.
Arguments Panicked {A}.

(** The loop of [Random]:
[[
    for k, v := range m.vals {
        if n == 0 { return k, v }
        n--
    }
]]
    over the traversal [ord]; [None] when the loop ends without returning. *)
Fixpoint scan {A : Type} (n : Z) (ord : list A) : option A :=
  match ord with
  | [] => None
  | kv :: rest => if n =? 0 then Some kv else scan (n - 1) rest
  end.

(** [for k := range s] with one variable over a slice: [k] is the index. *)
Definition range_indices {A : Type} (s : list A) : list Z :=
  Z.of_nat <$> seq 0 (length s).

(** ** encoding/json, as far as the stores use it *)

(** The double quote character. *)
Definition dquote : string := String (ascii_of_nat 34) EmptyString.

Definition backslash : string := String (ascii_of_nat 92) EmptyString.

(** A JSON string literal.  The quote and the backslash are escaped; the
    escapes json.Marshal writes for control characters, for the characters
    [<], [>], [&] and for invalid UTF-8 are left out. *)
Fixpoint json_escape (s : string) : string :=
  match s with
  | EmptyString => EmptyString
  | String c rest =>
      if decide (c = ascii_of_nat 34) then backslash +:+ dquote +:+ json_escape rest
      else if decide (c = ascii_of_nat 92) then backslash +:+ backslash +:+ json_escape rest
      else String c (json_escape rest)
  end.

Definition json_quote (s : string) : string := dquote +:+ json_escape s +:+ dquote.

Fixpoint join (sep : string) (ss : list string) : string :=
  match ss with
  | [] => EmptyString
  | [s] => s
  | s :: rest => s +:+ sep +:+ join sep rest
  end.

(** [json.Marshal] of an [int]. *)
Definition json_Marshal_int (i : Z) : string * option error := (pretty i, None).

(** [json.Marshal] of a [[]string] that is not nil. *)
Definition json_Marshal_strings (ss : list string) : string * option error :=
  ("[" +:+ join "," (json_quote <$> ss) +:+ "]", None).

(** What [Decoder.Decode] reads from its input when the target is a
    [map[K]T]: input it refuses (not JSON, or JSON that is neither an object
    nor null), the literal null, or an object with its members in the order
    of the text and the first type error met on the way, if any. *)
Inductive json_doc (K T : Type) : Type :=
| JInvalid (e : error)
| JNull
| JObject (members : list (K * T)) (err : option error).

Arguments JInvalid {K T} e.
Arguments JNull {K T}.
Arguments JObject {K T} members err.

(** [Decode(&target)] for a map target, after the documentation of
    encoding/json: null sets the map to nil; for an object, "if the map is
    nil, Unmarshal allocates a new map.  Otherwise Unmarshal reuses the
    existing map, keeping existing entries.  Unmarshal then stores key-value
    pairs from the JSON object into the map."  Refused input leaves the
    target as it was. *)
Definition decode_map `{Countable K} {T : Type}
    (doc : json_doc K T) (target : option (gmap K T)) : option (gmap K T) * option error :=
  match doc with
  | JInvalid e => (target, Some e)
  | JNull => (None, None)
  | JObject members err =>
      (Some (foldl (λ mm kv, <[kv.1 := kv.2]> mm) (default ∅ target) members), err)
  end.

(** ** Helpers shared by the two stores (map.go) *)

(** The value [encString] is given, by the branch of its type switch that
    takes it: a [string], a [fmt.Stringer] (with what its [String] method
    returns), or a value of another type (with what [json.Marshal] returns
    for it). *)
Inductive any : Type :=
| IsString (s : string)
| IsStringer (str : string)
| Other (marshalled : string * option error).

Definition encString (v : any) : string :=
  match v with
  | IsString s => s
  | IsStringer s => s
  | Other (b, _) => b
  end.

(** [mapKeys]: nil for a nil map, else the keys in the order of the
    traversal. *)
Definition mapKeys {K T : Type} `{Countable K}
    (ord : list (K * T)) (mm : option (gmap K T)) : option (list K) :=
  match mm with
  | None => None
  | Some _ => Some (ord.*1)
  end.

(** [len] of a map; 0 for nil. *)
Definition len {K T : Type} `{Countable K} (mm : option (gmap K T)) : Z :=
  match mm with
  | None => 0
  | Some vs => Z.of_nat (size vs)
  end.

(** [ord] is a traversal of [mm]: it visits every entry once. *)
Definition traversal {K T : Type} `{Countable K}
    (mm : option (gmap K T)) (ord : list (K * T)) : Prop :=
  ord ≡ₚ map_to_list (default ∅ mm).

(** ** Map (map.go)

    [Set] is a keyword of Rocq: the method [Set] is [Set_] here. *)

Module Map.
Section defs.
Context {K : Type} `{Countable K} {T : Type} `{Zero K} `{Zero T}.

(** [type Map struct { mx sync.RWMutex; ver uint64; vals map[K]T }];
    [vals = None] is the nil map. *)
Record Map : Type := mk { ver : N; vals : option (gmap K T) }.

(** [var m Map[K, T]] *)
Definition zero_Map : Map := {| ver := 0; vals := None |}.

(** [maps.Clone] copies the entries; a nil map stays nil. *)
Definition NewMap (values : option (gmap K T)) : Map :=
  {| ver := 0; vals := values |}.

Definition Clear (m : Map) : Map :=
  {| ver := incr64 (ver m); vals := None |}.

Definition Set_ (key : K) (value : T) (m : Map) : Map :=
  let vs := match vals m with
            | None => ∅
            | Some vs => vs
            end in
  {| ver := incr64 (ver m); vals := Some (<[key := value]> vs) |}.

Definition Delete (key : K) (m : Map) : Map :=
  match vals m with
  | Some vs => {| ver := incr64 (ver m); vals := Some (delete key vs) |}
  | None => m
  end.

Definition Get (key : K) (m : Map) : T :=
  match vals m with
  | Some vs => (comma_ok (vs !! key)).1
  | None => zero
  end.

(** [fn] runs after [RUnlock] and before [Set] takes the lock: it is given
    the store (a closure may hold [m]) and the caller's state [W]. *)
Definition GetOrSet {W : Type} (key : K) (fn : Map → W → T * Map * W)
    (m : Map) (w : W) : T * Map * W :=
  let '(res, ok) := match vals m with
                    | Some vs => comma_ok (vs !! key)
                    | None => (zero, false)
                    end in
  if ok then (res, m, w)
  else let '(res, m', w') := fn m w in (res, Set_ key res m', w').

Definition Exists (key : K) (m : Map) : bool :=
  match vals m with
  | None => false
  | Some vs => (comma_ok (vs !! key)).2
  end.

Definition Len (m : Map) : Z := len (vals m).

Definition Version (m : Map) : N := ver m.

(** [res := map[K]T{}; for k, v := range m.vals { res[k] = v }] *)
Definition KeyValues (ord : list (K * T)) (m : Map) : gmap K T :=
  match vals m with
  | Some _ => foldl (λ res kv, <[kv.1 := kv.2]> res) ∅ ord
  | None => ∅
  end.

Definition Keys (ord : list (K * T)) (m : Map) : option (list K) :=
  mapKeys ord (vals m).

Definition Values (ord : list (K * T)) (m : Map) : list T :=
  match vals m with
  | Some _ => ord.*2
  | None => []
  end.

(** [encString(m.vals)]: a map is neither a string nor a Stringer. *)
Definition String (json_Marshal : option (gmap K T) → string * option error)
    (m : Map) : string :=
  encString (Other (json_Marshal (vals m))).

Definition Pop (ord : list (K * T)) (m : Map) : (K * T) * Map :=
  match vals m with
  | Some vs =>
      match ord with
      | (key, value) :: _ =>
          ((key, value), {| ver := incr64 (ver m); vals := Some (delete key vs) |})
      | [] => ((zero, zero), m)
      end
  | None => ((zero, zero), m)
  end.

Definition PopAll (m : Map) : option (gmap K T) * Map :=
  (vals m, {| ver := incr64 (ver m); vals := None |}).

(** [n] is what [rand.Intn(cnt)] returned. *)
Definition Random (n : Z) (ord : list (K * T)) (m : Map) : outcome (K * T) :=
  let cnt := len (vals m) in
  if 0 <? cnt then
    match scan n ord with
    | Some kv => Returned kv
    | None => Panicked
    end
  else Returned (zero, zero).

Definition RandomValue (n : Z) (ord : list (K * T)) (m : Map) : outcome T :=
  match Random n ord m with
  | Returned kv => Returned kv.2
  | Panicked => Panicked
  end.

Definition RandomKey (n : Z) (ord : list (K * T)) (m : Map) : outcome K :=
  match Random n ord m with
  | Returned kv => Returned kv.1
  | Panicked => Panicked
  end.

(** [json.Marshal(m.KeyValues())]; the argument is never nil. *)
Definition MarshalJSON (json_Marshal : option (gmap K T) → string * option error)
    (ord : list (K * T)) (m : Map) : string * option error :=
  json_Marshal (Some (KeyValues ord m)).

(** [json_read data] is what the decoder reads from [data]. *)
Definition UnmarshalJSON (json_read : string → json_doc K T)
    (data : string) (m : Map) : Map * option error :=
  let '(vs, err) := decode_map (json_read data) (vals m) in
  ({| ver := incr64 (ver m); vals := vs |}, err).

Definition BinaryEncode (gob_Encode : option (gmap K T) → string * option error)
    (m : Map) : string * option error :=
  gob_Encode (vals m).

Definition MarshalBinary (gob_Encode : option (gmap K T) → string * option error)
    (m : Map) : string * option error :=
  BinaryEncode gob_Encode m.

(** [gob_Decode data target] is what [Decode(&m.vals)] leaves in the map and
    the error it returns. *)
Definition BinaryDecode
    (gob_Decode : string → option (gmap K T) → option (gmap K T) * option error)
    (data : string) (m : Map) : Map * option error :=
  let '(vs, err) := gob_Decode data (vals m) in
  ({| ver := incr64 (ver m); vals := vs |}, err).

Definition UnmarshalBinary
    (gob_Decode : string → option (gmap K T) → option (gmap K T) * option error)
    (data : string) (m : Map) : Map * option error :=
  BinaryDecode gob_Decode data m.

(** *** Sequences of calls *)

(** A [Set] or a [Delete]. *)
Inductive set_delete : Type :=
| DoSet (key : K) (value : T)
| DoDelete (key : K).

Definition apply_set_delete (o : set_delete) (m : Map) : Map :=
  match o with
  | DoSet key value => Set_ key value m
  | DoDelete key => Delete key m
  end.

Definition run_set_delete (ops : list set_delete) (m : Map) : Map :=
  foldl (λ m o, apply_set_delete o m) m ops.

(** A call of any method of [*Map], with its arguments, the traversal order
    of its [range] and the number drawn by [rand.Intn] where it has one.  The
    supplier of [CallGetOrSet] leaves the store alone. *)
Inductive call : Type :=
| CallClear
| CallSet (key : K) (value : T)
| CallDelete (key : K)
| CallGet (key : K)
| CallGetOrSet (key : K) (fn : unit → T)
| CallExists (key : K)
| CallLen
| CallVersion
| CallKeyValues (ord : list (K * T))
| CallKeys (ord : list (K * T))
| CallValues (ord : list (K * T))
| CallString
| CallPop (ord : list (K * T))
| CallPopAll
| CallRandomValue (n : Z) (ord : list (K * T))
| CallRandomKey (n : Z) (ord : list (K * T))
| CallRandom (n : Z) (ord : list (K * T))
| CallMarshalJSON (ord : list (K * T))
| CallUnmarshalJSON (data : string)
| CallMarshalBinary
| CallUnmarshalBinary (data : string)
| CallBinaryEncode
| CallBinaryDecode (data : string).

(** The store after a call.  A method that only takes the read lock leaves
    the record as it is, also when it panics. *)
Definition after (json_read : string → json_doc K T)
    (gob_Decode : string → option (gmap K T) → option (gmap K T) * option error)
    (c : call) (m : Map) : Map :=
  match c with
  | CallClear => Clear m
  | CallSet key value => Set_ key value m
  | CallDelete key => Delete key m
  | CallGetOrSet key fn => (GetOrSet key (λ m' w, (fn w, m', w)) m tt).1.2
  | CallPop ord => (Pop ord m).2
  | CallPopAll => (PopAll m).2
  | CallUnmarshalJSON data => (UnmarshalJSON json_read data m).1
  | CallUnmarshalBinary data => (UnmarshalBinary gob_Decode data m).1
  | CallBinaryDecode data => (BinaryDecode gob_Decode data m).1
  | CallGet _ | CallExists _ | CallLen | CallVersion | CallKeyValues _
  | CallKeys _ | CallValues _ | CallString | CallRandomValue _ _
  | CallRandomKey _ _ | CallRandom _ _ | CallMarshalJSON _
  | CallMarshalBinary | CallBinaryEncode => m
  end.

Definition run (json_read : string → json_doc K T)
    (gob_Decode : string → option (gmap K T) → option (gmap K T) * option error)
    (calls : list call) (m : Map) : Map :=
  foldl (λ m c, after json_read gob_Decode c m) m calls.

(** The calls after which [Version] is promised to be larger: [Set],
    [PopAll], and [Delete] on a store that holds an entry. *)
Definition bumps (c : call) (m : Map) : Prop :=
  match c with
  | CallSet _ _ | CallPopAll => True
  | CallDelete _ => 0 < Len m
  | _ => False
  end.

(** *** The history of a key, in the words of the specification *)

(** [key] was set at some point of [ops] and not deleted afterwards. *)
Definition set_and_not_deleted (ops : list set_delete) (key : K) : Prop :=
  ∃ (i : nat) (value : T),
    ops !! i = Some (DoSet key value) ∧
    ∀ j : nat, (i < j)%nat → ops !! j ≠ Some (DoDelete key).

End defs.

Arguments Map K {_ _} T.
Arguments set_delete K T : clear implicits.
Arguments call K T : clear implicits.

(** The methods map.go declares on [*Map]. *)
Definition methods : list string :=
  [ "Clear"; "Set"; "Delete"; "Get"; "GetOrSet"; "Exists"; "Len"; "Version";
    "KeyValues"; "Keys"; "Values"; "String"; "Pop"; "PopAll"; "RandomValue";
    "RandomKey"; "Random"; "MarshalJSON"; "UnmarshalJSON"; "MarshalBinary";
    "UnmarshalBinary"; "BinaryEncode"; "BinaryDecode" ]%string.

(** Method lookup: [m.name] resolves when [name] is declared. *)
Definition has_method (name : string) : bool :=
  bool_decide (name ∈ methods).

(** The body of [Increment] that map.go keeps in a comment (lines 46 to 58):
[[
    if v, ok := m.vals[key]; ok { val += v }
    m.vals[key] = val
    m.ver++
    return val
]]
    [+=] is not defined for every [T]; the body is given here with the
    addition [add] of the value type. *)
Definition Increment_disabled `{Countable K} {T : Type} (add : T → T → T)
    (key : K) (val : T) (m : Map K T) : T * Map K T :=
  let vs := match vals m with
            | None => ∅
            | Some vs => vs
            end in
  let val := match vs !! key with
             | Some v => add val v
             | None => val
             end in
  (val, {| ver := incr64 (ver m); vals := Some (<[key := val]> vs) |}).

End Map.

(** ** Set (set.go)

    The type [Set] and its module are [Set_], the method [Set] is [Set__]. *)

Module Set_.
Section defs.
Context {K : Type} `{Countable K} `{Zero K}.

(** [type Set struct { mx sync.RWMutex; ver uint64; vals map[K]struct{} }] *)
Record Set_ : Type := mk { ver : N; vals : option (gmap K unit) }.

Definition zero_Set : Set_ := {| ver := 0; vals := None |}.

Definition sliceToMap (s : list K) : gmap K unit :=
  foldl (λ m v, <[v := tt]> m) ∅ s.

Definition NewSet (values : list K) : Set_ :=
  {| ver := 0; vals := Some (foldl (λ vv v, <[v := tt]> vv) ∅ values) |}.

Definition Clear (m : Set_) : Set_ :=
  {| ver := incr64 (ver m); vals := Some ∅ |}.

Definition Set__ (key : K) (m : Set_) : Set_ :=
  let vs := match vals m with
            | None => ∅
            | Some vs => vs
            end in
  {| ver := incr64 (ver m); vals := Some (<[key := tt]> vs) |}.

Definition Delete (key : K) (m : Set_) : Set_ :=
  match vals m with
  | Some vs => {| ver := incr64 (ver m); vals := Some (delete key vs) |}
  | None => m
  end.

Definition Exists (key : K) (m : Set_) : bool :=
  match vals m with
  | None => false
  | Some vs => (comma_ok (vs !! key)).2
  end.

Definition Size (m : Set_) : Z := len (vals m).

Definition Version (m : Set_) : N := ver m.

Definition Values (ord : list (K * unit)) (m : Set_) : option (list K) :=
  mapKeys ord (vals m).

(** [for k := range m.Values() { ss = append(ss, encString(k)) }]: the one
    loop variable of a [range] over a slice is the index, an [int], which
    [encString] renders through [json.Marshal]. *)
Definition Strings (ord : list (K * unit)) (m : Set_) : list string :=
  (λ k, encString (Other (json_Marshal_int k)))
    <$> range_indices (default [] (Values ord m)).

Definition String (ord : list (K * unit)) (m : Set_) : string :=
  encString (Other (json_Marshal_strings (Strings ord m))).

Definition Pop (ord : list (K * unit)) (m : Set_) : K * Set_ :=
  match vals m with
  | Some vs =>
      match ord with
      | (key, _) :: _ =>
          (key, {| ver := incr64 (ver m); vals := Some (delete key vs) |})
      | [] => (zero, m)
      end
  | None => (zero, m)
  end.

Definition PopAll (ord : list (K * unit)) (m : Set_) : option (list K) * Set_ :=
  (mapKeys ord (vals m), {| ver := incr64 (ver m); vals := None |}).

Definition Random (n : Z) (ord : list (K * unit)) (m : Set_) : outcome K :=
  let cnt := len (vals m) in
  if 0 <? cnt then
    match scan n ord with
    | Some kv => Returned kv.1
    | None => Panicked
    end
  else Returned zero.

Definition MarshalJSON (json_Marshal : option (list K) → string * option error)
    (ord : list (K * unit)) (m : Set_) : string * option error :=
  json_Marshal (Values ord m).

(** [json_Unmarshal data] is the slice [json.Unmarshal(data, &vv)] leaves in
    the local [vv] and the error it returns. *)
Definition UnmarshalJSON (json_Unmarshal : string → list K * option error)
    (data : string) (m : Set_) : Set_ * option error :=
  let '(vv, err) := json_Unmarshal data in
  match err with
  | Some e => (m, Some e)
  | None => ({| ver := incr64 (ver m); vals := Some (sliceToMap vv) |}, None)
  end.

Definition BinaryEncode (gob_Encode : option (list K) → string * option error)
    (ord : list (K * unit)) (m : Set_) : string * option error :=
  gob_Encode (Values ord m).

Definition BinaryDecode (gob_Decode : string → list K * option error)
    (data : string) (m : Set_) : Set_ * option error :=
  let '(vv, err) := gob_Decode data in
  match err with
  | Some e => (m, Some e)
  | None => ({| ver := incr64 (ver m); vals := Some (sliceToMap vv) |}, None)
  end.

End defs.

Arguments Set_ K {_ _}.

End Set_.

(** ** A fragment of encoding/json for [map[string]int] and [[]string]

    The stores leave reading and writing JSON text to encoding/json.  The
    statements below are made for any reader and writer; the examples run
    with this fragment: compact text as json.Marshal writes it, keys and
    elements without escapes, integers in decimal.  Text outside the
    fragment is refused. *)

Module Fragment.

Inductive token : Type :=
| TLBrace | TRBrace | TLBrack | TRBrack | TColon | TComma
| TStr (s : string)
| TInt (i : Z).

Definition punct (c : ascii) : option token :=
  if decide (c = "{"%char) then Some TLBrace
  else if decide (c = "}"%char) then Some TRBrace
  else if decide (c = "["%char) then Some TLBrack
  else if decide (c = "]"%char) then Some TRBrack
  else if decide (c = ":"%char) then Some TColon
  else if decide (c = ","%char) then Some TComma
  else None.

Definition digit (c : ascii) : option Z :=
  let n := Z.of_nat (nat_of_ascii c) in
  if (48 <=? n) && (n <=? 57) then Some (n - 48) else None.

(** Where the lexer stands: between tokens, inside a string (the characters
    so far, last first), or inside a number (sign, digits read, value). *)
Inductive lex_state : Type :=
| Idle
| InStr (acc : string)
| InNum (neg : bool) (digits : nat) (value : Z).

Definition close_num (neg : bool) (digits : nat) (value : Z) : option token :=
  match digits with
  | O => None
  | S _ => Some (TInt (if neg then - value else value))
  end.

Fixpoint lex (s : string) (st : lex_state) (out : list token) : option (list token) :=
  match s with
  | EmptyString =>
      match st with
      | Idle => Some (rev out)
      | InStr _ => None
      | InNum neg digits value => (λ t, rev (t :: out)) <$> close_num neg digits value
      end
  | String.String c rest =>
      match st with
      | InStr acc =>
          if decide (c = ascii_of_nat 34) then lex rest Idle (TStr (String.rev acc) :: out)
          else if decide (c = ascii_of_nat 92) then None
          else lex rest (InStr (String.String c acc)) out
      | InNum neg digits value =>
          match digit c with
          | Some d =>
              if decide (digits = 1%nat ∧ value = 0) then None
              else lex rest (InNum neg (S digits) (10 * value + d)) out
          | None =>
              match close_num neg digits value, punct c with
              | Some t, Some p => lex rest Idle (p :: t :: out)
              | _, _ => None
              end
          end
      | Idle =>
          if decide (c = ascii_of_nat 34) then lex rest (InStr EmptyString) out
          else if decide (c = "-"%char) then lex rest (InNum true 0 0) out
          else match digit c, punct c with
               | Some d, _ => lex rest (InNum false 1 d) out
               | None, Some p => lex rest Idle (p :: out)
               | None, None => None
               end
      end
  end.

(** [key:value] pairs up to the closing brace. *)
Fixpoint members (ts : list token) : option (list (string * Z)) :=
  match ts with
  | TStr k :: TColon :: TInt v :: [TRBrace] => Some [(k, v)]
  | TStr k :: TColon :: TInt v :: TComma :: rest => ((k, v) ::.) <$> members rest
  | _ => None
  end.

(** Strings up to the closing bracket. *)
Fixpoint elements (ts : list token) : option (list string) :=
  match ts with
  | TStr s :: [TRBrack] => Some [s]
  | TStr s :: TComma :: rest => (s ::.) <$> elements rest
  | _ => None
  end.

(** The reader for a [map[string]int] target. *)
Definition read_map (data : string) : json_doc string Z :=
  if decide (data = "null") then JNull
  else match lex data Idle [] with
       | Some [TLBrace; TRBrace] => JObject [] None
       | Some (TLBrace :: ts) =>
           match members ts with
           | Some kvs => JObject kvs None
           | None => JInvalid "json: cannot unmarshal into map[string]int"
           end
       | _ => JInvalid "json: invalid input"
       end.

(** [json.Unmarshal(data, &vv)] for [vv []string]. *)
Definition Unmarshal_strings (data : string) : list string * option error :=
  if decide (data = "null") then ([], None)
  else match lex data Idle [] with
       | Some [TLBrack; TRBrack] => ([], None)
       | Some (TLBrack :: ts) =>
           match elements ts with
           | Some ss => (ss, None)
           | None => ([], Some "json: cannot unmarshal into []string")
           end
       | _ => ([], Some "json: invalid input")
       end.

(** The order json.Marshal writes the members of a map in: by key. *)
Definition key_le (a b : string * Z) : Prop := String.leb a.1 b.1 = true.

#[local] Instance key_le_dec : RelDecision key_le :=
  λ a b, decide (String.leb a.1 b.1 = true).

(** [json.Marshal] of a [map[string]int]: null for the nil map, else the
    members sorted by key. *)
Definition Marshal_map (mm : option (gmap string Z)) : string * option error :=
  match mm with
  | None => ("null", None)
  | Some vs =>
      let sorted := merge_sort key_le (map_to_list vs) in
      ("{" +:+ join "," ((λ kv : string * Z, json_quote kv.1 +:+ ":" +:+ pretty kv.2) <$> sorted) +:+ "}",
       None)
  end.

(** A gob stream is opaque to the stores.  This decoder stands for one in
    the examples: it refuses the empty stream and reads any other as an
    empty map. *)
Definition gob_Decode (data : string) (target : option (gmap string Z))
    : option (gmap string Z) * option error :=
  if decide (data = EmptyString) then (target, Some "EOF")
  else (Some (default ∅ target), None).

(** [text] between double quotes. *)
Definition q (text : string) : string := dquote +:+ text +:+ dquote.

End Fragment.

(** ** What the round trip asks of the codec *)


(** The same for the keys of a Set: when [json.Marshal] succeeds on the
    slice [keys], [json.Unmarshal] reads its text as the elements of
    [keys], in some order, and no error. *)
Definition reads_back_keys {K : Type}
    (json_Marshal : option (list K) → string * option error)
    (json_Unmarshal : string → list K * option error)
    (keys : option (list K)) : Prop :=
  ∀ data : string, json_Marshal keys = (data, None) →
    ∃ vv : list K, json_Unmarshal data = (vv, None) ∧ vv ≡ₚ default [] keys.

(** [json.Marshal] of a [[]string] that may be nil: null for nil. *)
Definition json_Marshal_keys (keys : option (list string)) : string * option error :=
  match keys with
  | None => ("null"%string, None)
  | Some ss => json_Marshal_strings ss
  end.

(** ** Stores and inputs of the examples *)

Module Examples.

Import Fragment.

(** The store of TestMap_MarshalJSON: [Set("abc", 123)], [Set("def", 456)]. *)
Definition abc_def : Map.Map string Z :=
  Map.Set_ "def" 456 (Map.Set_ "abc" 123 Map.zero_Map).

(** One order in which a range can visit its two entries. *)
Definition def_abc_order : list (string * Z) := [("def", 456); ("abc", 123)].

(** The text [{"abc":123,"def":456}]. *)
Definition abc_def_text : string :=
  "{" +:+ q "abc" +:+ ":123," +:+ q "def" +:+ ":456}".

(** A store that holds the one entry ["a": 1]. *)
Definition only_a : Map.Map string Z := Map.Set_ "a" 1 Map.zero_Map.

(** The text [{"b":2}]. *)
Definition b_text : string := "{" +:+ q "b" +:+ ":2}".

(** [NewSet([]string{"abc"})] and the order of its one key. *)
Definition set_abc : Set_.Set_ string := Set_.NewSet ["abc"].

Definition abc_order : list (string * unit) := [("abc", tt)].

(** [NewSet([]string{"x", "y"})]. *)
Definition set_xy : Set_.Set_ string := Set_.NewSet ["x"; "y"].

Definition yx_order : list (string * unit) := [("y", tt); ("x", tt)].

(** A supplier that counts its calls in the caller's state and returns 7. *)
Definition counting_supplier (m : Map.Map string Z) (calls : nat)
    : Z * Map.Map string Z * nat :=
  (7, m, S calls).

(** A gob decoder for [[]string] of the examples: it refuses the empty
    stream. *)
Definition gob_Decode_strings (data : string) : list string * option error :=
  if decide (data = EmptyString) then ([], Some "EOF") else ([data], None).

(** A sequence of calls that uses every kind of step. *)
Definition some_calls : list (Map.call string Z) :=
  [ Map.CallSet "abc" 123; Map.CallGet "abc"; Map.CallDelete "zzz";
    Map.CallPop [("abc", 123)]; Map.CallPopAll; Map.CallDelete "abc";
    Map.CallUnmarshalJSON b_text; Map.CallGetOrSet "c" (λ _, 3);
    Map.CallRandom 0 [("b", 2); ("c", 3)]; Map.CallClear ].

End Examples.

(** ** Tactics *)

(** A list of at most two entries visits a computed map once each. *)
Ltac two_entry_traversal :=
  unfold traversal; vm_compute; first [reflexivity | apply perm_swap].

(** * Properties *)

(** ** The version counter *)

Lemma incr64_small (v : N) : (v + 1 < uint64_modulus)%N → incr64 v = (v + 1)%N.
Proof. intros Hv. unfold incr64. apply N.mod_small. exact Hv. Qed.

Lemma incr64_max : incr64 (uint64_modulus - 1) = 0%N.
Proof. reflexivity. Qed.

(** ** Storing a list of pairs into a map, one after the other *)

Section insert_all.
Context {K : Type} `{Countable K} {T : Type}.

Lemma foldl_insert_union (l : list (K * T)) (m0 : gmap K T) :
  foldl (λ mm kv, <[kv.1 := kv.2]> mm) m0 l = list_to_map (reverse l) ∪ m0.
Proof.
  revert m0. induction l as [|[k v] l IH]; intros m0; simpl.
  - symmetry. apply (left_id_L ∅ (∪)).
  - rewrite IH, reverse_cons, list_to_map_app. simpl.
    rewrite <- (assoc_L (∪)). f_equal.
    rewrite insert_empty. by rewrite <- insert_union_singleton_l.
Qed.

Lemma foldl_insert_traversal (ord : list (K * T)) (vs : gmap K T) :
  ord ≡ₚ map_to_list vs → foldl (λ mm kv, <[kv.1 := kv.2]> mm) ∅ ord = vs.
Proof.
  intros Hord. rewrite foldl_insert_union, (right_id_L ∅ (∪)).
  transitivity (list_to_map (M := gmap K T) (map_to_list vs)); [|apply list_to_map_to_list].
  apply list_to_map_proper.
  - rewrite fmap_reverse, reverse_Permutation, Hord. apply NoDup_fst_map_to_list.
  - by rewrite reverse_Permutation.
Qed.

(** A key the list does not mention keeps what the map held for it. *)
Lemma foldl_insert_lookup_other (l : list (K * T)) (m0 : gmap K T) (k : K) :
  k ∉ l.*1 → foldl (λ mm kv, <[kv.1 := kv.2]> mm) m0 l !! k = m0 !! k.
Proof.
  revert m0. induction l as [|[k' v] l IH]; intros m0 Hk; simpl in *; [done|].
  apply not_elem_of_cons in Hk as [Hne Hk].
  rewrite IH by done. by rewrite lookup_insert_ne.
Qed.

End insert_all.

(** ** The scan of Random *)

Lemma scan_lookup {A : Type} (ord : list A) (n : Z) :
  0 ≤ n → scan n ord = ord !! Z.to_nat n.
Proof.
  revert n. induction ord as [|kv rest IH]; intros n Hn; simpl.
  - by rewrite lookup_nil.
  - destruct (Z.eqb_spec n 0) as [->|Hne]; [done|].
    rewrite IH by lia.
    replace (Z.to_nat n) with (S (Z.to_nat (n - 1))) by lia. done.
Qed.

Lemma scan_finds {A : Type} (ord : list A) (n : Z) :
  0 ≤ n < Z.of_nat (length ord) →
  ∃ kv, scan n ord = Some kv ∧ ord !! Z.to_nat n = Some kv.
Proof.
  intros Hn. rewrite scan_lookup by lia.
  destruct (lookup_lt_is_Some_2 ord (Z.to_nat n)) as [kv Hkv]; [lia|].
  by exists kv.
Qed.

Lemma traversal_length {K T : Type} `{Countable K}
    (mm : option (gmap K T)) (ord : list (K * T)) :
  traversal mm ord → Z.of_nat (length ord) = len mm.
Proof.
  unfold traversal, len. intros ->. rewrite length_map_to_list.
  destruct mm; simpl; [done|]. by rewrite map_size_empty.
Qed.

Lemma traversal_lookup {K T : Type} `{Countable K}
    (mm : option (gmap K T)) (ord : list (K * T)) (i : nat) (k : K) (v : T) :
  traversal mm ord → ord !! i = Some (k, v) → default ∅ mm !! k = Some v.
Proof.
  unfold traversal. intros Hord Hi.
  apply elem_of_map_to_list. rewrite <- Hord.
  apply list_elem_of_lookup. by exists i.
Qed.

(** ** Random *)

(** C9.  On a store that holds at least one entry, Random does not panic:
    for every number [n] that [rand.Intn(cnt)] can return, that is
    [0 <= n < cnt], and every order in which the range visits the entries,
    the scan returns at its step [n], which is below the size, with an entry
    of the store.  The same holds for the Random of Set. *)
Theorem Random_never_panics :
  (∀ (K : Type) `(Countable K) (T : Type) (zK : Zero K) (zT : Zero T)
     (m : Map.Map K T) (ord : list (K * T)) (n : Z),
     0 < Map.Len m → traversal (Map.vals m) ord → 0 ≤ n < Map.Len m →
     ∃ k v, Map.Random n ord m = Returned (k, v) ∧
            ord !! Z.to_nat n = Some (k, v) ∧
            (Z.to_nat n < length ord)%nat ∧
            Z.of_nat (length ord) = Map.Len m ∧
            Map.Exists k m = true ∧ Map.Get k m = v) ∧
  (∀ (K : Type) `(Countable K) (zK : Zero K)
     (s : Set_.Set_ K) (ord : list (K * unit)) (n : Z),
     0 < Set_.Size s → traversal (Set_.vals s) ord → 0 ≤ n < Set_.Size s →
     ∃ k, Set_.Random n ord s = Returned k ∧
          ord !! Z.to_nat n = Some (k, tt) ∧
          (Z.to_nat n < length ord)%nat ∧
          Z.of_nat (length ord) = Set_.Size s ∧
          Set_.Exists k s = true).
Proof.
  split.
  - intros K ? ? T zK zT m ord n Hpos Hord Hn.
    unfold Map.Len in *.
    pose proof (traversal_length _ _ Hord) as Hlen.
    destruct (scan_finds ord n) as [[k v] [Hscan Hnth]]; [lia|].
    exists k, v. unfold Map.Random.
    rewrite Hscan. destruct (Z.ltb_spec 0 (len (Map.vals m))); [|lia].
    pose proof (traversal_lookup _ _ _ _ _ Hord Hnth) as Hk.
    repeat split; try done; try lia.
    + unfold Map.Exists. destruct (Map.vals m) as [vs|]; simpl in *; [|done].
      by rewrite Hk.
    + unfold Map.Get. destruct (Map.vals m) as [vs|]; simpl in *; [|done].
      by rewrite Hk.
  - intros K ? ? zK s ord n Hpos Hord Hn.
    unfold Set_.Size in *.
    pose proof (traversal_length _ _ Hord) as Hlen.
    destruct (scan_finds ord n) as [[k []] [Hscan Hnth]]; [lia|].
    exists k. unfold Set_.Random.
    rewrite Hscan. destruct (Z.ltb_spec 0 (len (Set_.vals s))); [|lia].
    pose proof (traversal_lookup _ _ _ _ _ Hord Hnth) as Hk.
    repeat split; try done; try lia.
    unfold Set_.Exists. destruct (Set_.vals s) as [vs|]; simpl in *; [|done].
    by rewrite Hk.
Qed.

(** ** Delete *)

Lemma comma_ok_absent {A : Type} `{Zero A} (r : option A) :
  (comma_ok r).2 = false → r = None.
Proof. by destruct r. Qed.

(** C4, as amended.  Deleting a key that is not present leaves the entries
    as they are.  The version stays as it is only while the storage is nil;
    once the storage exists the call adds one to the version, whether or
    not the key was there.  Map and Set behave alike. *)
Theorem Delete_absent_key :
  (∀ (K : Type) `(Countable K) (T : Type) (zT : Zero T) (m : Map.Map K T) (key : K),
     Map.Exists key m = false →
     Map.vals (Map.Delete key m) = Map.vals m ∧
     Map.Version (Map.Delete key m) =
       match Map.vals m with
       | None => Map.Version m
       | Some _ => incr64 (Map.Version m)
       end) ∧
  (∀ (K : Type) `(Countable K) (s : Set_.Set_ K) (key : K),
     Set_.Exists key s = false →
     Set_.vals (Set_.Delete key s) = Set_.vals s ∧
     Set_.Version (Set_.Delete key s) =
       match Set_.vals s with
       | None => Set_.Version s
       | Some _ => incr64 (Set_.Version s)
       end).
Proof.
  split.
  - intros K ? ? T zT [v [vs|]] key; unfold Map.Exists, Map.Delete; simpl; [|done].
    intros Habs%comma_ok_absent. by rewrite delete_id.
  - intros K ? ? [v [vs|]] key; unfold Set_.Exists, Set_.Delete; simpl; [|done].
    intros Habs%comma_ok_absent. by rewrite delete_id.
Qed.

(** ** GetOrSet *)

(** C8.  When the key is present GetOrSet returns the stored value and
    leaves the store, its version and the caller's state as they were,
    whatever the supplier is: the supplier is not called.  When the key is
    absent it returns what the supplier returns and stores that under the
    key with one [Set], which adds one to the version the supplier left; a
    supplier that leaves the store alone therefore sees the version of the
    store go up by one. *)
Theorem GetOrSet_present_or_absent
    (K : Type) `(Countable K) (T : Type) (zT : Zero T) (W : Type)
    (m : Map.Map K T) (key : K) (fn : Map.Map K T → W → T * Map.Map K T * W) (w : W) :
  (Map.Exists key m = true →
     Map.GetOrSet key fn m w = (Map.Get key m, m, w)) ∧
  (Map.Exists key m = false →
     Map.GetOrSet key fn m w = ((fn m w).1.1, Map.Set_ key (fn m w).1.1 (fn m w).1.2, (fn m w).2) ∧
     Map.Get key (Map.GetOrSet key fn m w).1.2 = (fn m w).1.1 ∧
     Map.Exists key (Map.GetOrSet key fn m w).1.2 = true ∧
     Map.Version (Map.GetOrSet key fn m w).1.2 = incr64 (Map.Version (fn m w).1.2) ∧
     ((fn m w).1.2 = m →
        Map.vals (Map.GetOrSet key fn m w).1.2
          = Some (<[key := (fn m w).1.1]> (default ∅ (Map.vals m))) ∧
        Map.Version (Map.GetOrSet key fn m w).1.2 = incr64 (Map.Version m))).
Proof.
  split.
  - unfold Map.GetOrSet, Map.Exists, Map.Get.
    destruct (Map.vals m) as [vs|]; [|done].
    by destruct (vs !! key).
  - intros Habs.
    assert (Map.GetOrSet key fn m w
            = ((fn m w).1.1, Map.Set_ key (fn m w).1.1 (fn m w).1.2, (fn m w).2)) as Heq.
    { unfold Map.GetOrSet, Map.Exists in *.
      destruct (Map.vals m) as [vs|].
      - apply comma_ok_absent in Habs. rewrite Habs. simpl.
        by destruct (fn m w) as [[r m1] w1].
      - by destruct (fn m w) as [[r m1] w1]. }
    rewrite Heq. simpl. split; [done|].
    unfold Map.Get, Map.Exists, Map.Set_, Map.Version. simpl.
    rewrite lookup_insert_eq. simpl.
    split; [done|]. split; [done|]. split; [done|].
    intros ->. split; [|done]. by destruct (Map.vals m).
Qed.

(** ** Decoding into a Set *)

(** C10.  When the bytes do not decode, UnmarshalJSON and BinaryDecode of
    Set return the decoder's error and leave the store, keys and version,
    exactly as it was: the decoder fills a local slice and the store is only
    assigned after it succeeded. *)
Theorem Set_failed_decode_leaves_store
    (K : Type) `(Countable K)
    (json_Unmarshal gob_Decode : string → list K * option error)
    (data : string) (s : Set_.Set_ K) :
  (is_Some (json_Unmarshal data).2 →
     Set_.UnmarshalJSON json_Unmarshal data s = (s, (json_Unmarshal data).2)) ∧
  (is_Some (gob_Decode data).2 →
     Set_.BinaryDecode gob_Decode data s = (s, (gob_Decode data).2)).
Proof.
  split; intros [e He].
  - unfold Set_.UnmarshalJSON. destruct (json_Unmarshal data) as [vv err].
    simpl in He. by subst err.
  - unfold Set_.BinaryDecode. destruct (gob_Decode data) as [vv err].
    simpl in He. by subst err.
Qed.

(** ** Sequences of Set and Delete *)

Section history.
Context {K : Type} `{Countable K} {T : Type} `{Zero T}.

Implicit Types (ops : list (Map.set_delete K T)) (m : Map.Map K T).

Lemma Exists_is_Some m (key : K) :
  Map.Exists key m = true ↔ is_Some (default ∅ (Map.vals m) !! key).
Proof.
  unfold Map.Exists. destruct (Map.vals m) as [vs|]; simpl.
  - destruct (vs !! key); simpl; split; try done; by intros [? ?].
  - rewrite lookup_empty. split; [done|]. by intros [? ?].
Qed.

Lemma Exists_Set m (key k : K) (v : T) :
  Map.Exists key (Map.Set_ k v m) = true ↔ key = k ∨ Map.Exists key m = true.
Proof.
  rewrite !Exists_is_Some. unfold Map.Set_. simpl.
  replace (match Map.vals m with Some vs => vs | None => ∅ end)
    with (default ∅ (Map.vals m)) by by destruct (Map.vals m).
  rewrite lookup_insert_is_Some. destruct (decide (key = k)) as [->|Hne]; [tauto|].
  split; [intros [?|[_ ?]]; [congruence|tauto]|]. intros [?|?]; [done|]. right. split; [congruence|done].
Qed.

Lemma Exists_Delete m (key k : K) :
  Map.Exists key (Map.Delete k m) = true ↔ key ≠ k ∧ Map.Exists key m = true.
Proof.
  rewrite !Exists_is_Some. unfold Map.Delete.
  destruct m as [v [vs|]]; simpl.
  - rewrite lookup_delete_is_Some. split; intros [Hne ?]; (split; [congruence|done]).
  - rewrite lookup_empty. split; [intros Hs|intros [_ Hs]]; by apply is_Some_None in Hs.
Qed.

Lemma set_and_not_deleted_nil (key : K) :
  ¬ Map.set_and_not_deleted (T := T) [] key.
Proof. intros (i & v & Hi & _). by rewrite lookup_nil in Hi. Qed.

Lemma set_and_not_deleted_snoc_Set ops (key k : K) (v : T) :
  Map.set_and_not_deleted (ops ++ [Map.DoSet k v]) key
  ↔ key = k ∨ Map.set_and_not_deleted ops key.
Proof.
  split.
  - intros (i & v' & Hi & Hlater).
    apply lookup_snoc_Some in Hi as [[Hlt Hi]|[-> Heq]].
    + right. exists i, v'. split; [done|].
      intros j Hj Hdel. apply (Hlater j Hj).
      rewrite lookup_app_l; [done|]. by eapply lookup_lt_Some.
    + left. congruence.
  - intros [->|(i & v' & Hi & Hlater)].
    + exists (length ops), v. split; [apply list_lookup_middle; done|].
      intros j Hj Hdel. apply lookup_lt_Some in Hdel.
      rewrite length_app in Hdel. simpl in Hdel. lia.
    + exists i, v'. split.
      * rewrite lookup_app_l; [done|]. by eapply lookup_lt_Some.
      * intros j Hj Hdel. apply lookup_snoc_Some in Hdel as [[_ Hdel]|[_ Hdel]]; [|done].
        by apply (Hlater j Hj).
Qed.

Lemma set_and_not_deleted_snoc_Delete ops (key k : K) :
  Map.set_and_not_deleted (ops ++ [Map.DoDelete k]) key
  ↔ key ≠ k ∧ Map.set_and_not_deleted ops key.
Proof.
  split.
  - intros (i & v' & Hi & Hlater).
    apply lookup_snoc_Some in Hi as [[Hlt Hi]|[_ Heq]]; [|done].
    split.
    + intros ->. apply (Hlater (length ops) Hlt). by apply list_lookup_middle.
    + exists i, v'. split; [done|].
      intros j Hj Hdel. apply (Hlater j Hj).
      rewrite lookup_app_l; [done|]. by eapply lookup_lt_Some.
  - intros [Hne (i & v' & Hi & Hlater)].
    exists i, v'. split.
    + rewrite lookup_app_l; [done|]. by eapply lookup_lt_Some.
    + intros j Hj Hdel. apply lookup_snoc_Some in Hdel as [[_ Hdel]|[_ Hdel]].
      * by apply (Hlater j Hj).
      * congruence.
Qed.

Lemma run_set_delete_snoc ops (o : Map.set_delete K T) m :
  Map.run_set_delete (ops ++ [o]) m
  = Map.apply_set_delete o (Map.run_set_delete ops m).
Proof. unfold Map.run_set_delete. by rewrite foldl_snoc. Qed.

Lemma Exists_run_set_delete ops (key : K) :
  Map.Exists key (Map.run_set_delete ops Map.zero_Map) = true
  ↔ Map.set_and_not_deleted ops key.
Proof.
  induction ops as [|o ops IH] using rev_ind.
  - split; [done|]. by intros ?%set_and_not_deleted_nil.
  - rewrite run_set_delete_snoc. destruct o as [k v|k]; simpl.
    + by rewrite Exists_Set, set_and_not_deleted_snoc_Set, IH.
    + by rewrite Exists_Delete, set_and_not_deleted_snoc_Delete, IH.
Qed.

End history.

(** C6.  After any sequence of Set and Delete calls on a new store,
    [Exists key] is true exactly for the keys that were set at some point
    and not deleted afterwards, and [Len] is the number of these keys, each
    counted once. *)
Theorem Len_and_Exists_follow_history
    (K : Type) `(Countable K) (T : Type) (zT : Zero T)
    (ops : list (Map.set_delete K T)) :
  let m := Map.run_set_delete ops Map.zero_Map in
  (∀ key : K, Map.Exists key m = true ↔ Map.set_and_not_deleted ops key) ∧
  (∃ present : list K,
     NoDup present ∧
     (∀ key : K, key ∈ present ↔ Map.set_and_not_deleted ops key) ∧
     Map.Len m = Z.of_nat (length present)).
Proof.
  intros m. split; [intros key; apply Exists_run_set_delete|].
  exists ((map_to_list (default ∅ (Map.vals m))).*1). split; [|split].
  - apply NoDup_fst_map_to_list.
  - intros key. rewrite <- Exists_run_set_delete. fold m.
    unfold Map.Exists. destruct (Map.vals m) as [vs|]; simpl.
    + rewrite list_elem_of_fmap. split.
      * intros [[k v] [-> Hkv%elem_of_map_to_list]]. simpl. by rewrite Hkv.
      * destruct (vs !! key) as [v|] eqn:Hv; [|done]. intros _.
        exists (key, v). split; [done|]. by apply elem_of_map_to_list.
    + rewrite map_to_list_empty. simpl. split; [by intros ?%elem_of_nil|done].
  - rewrite length_fmap, length_map_to_list. unfold Map.Len, len.
    destruct (Map.vals m); simpl; [done|]. by rewrite map_size_empty.
Qed.

(** ** The version along a sequence of calls *)

Section version.
Context {K : Type} `{Countable K} {T : Type} `{Zero K} `{Zero T}.
Context (json_read : string → json_doc K T).
Context (gob_Decode : string → option (gmap K T) → option (gmap K T) * option error).

Implicit Types (m : Map.Map K T) (c : Map.call K T) (calls : list (Map.call K T)).

Local Abbreviation after := (Map.after json_read gob_Decode).
Local Abbreviation run := (Map.run json_read gob_Decode).

(** A call leaves the counter alone or applies [++] to it once. *)
Lemma after_version c m :
  Map.Version (after c m) = Map.Version m ∨
  Map.Version (after c m) = incr64 (Map.Version m).
Proof.
  destruct c; simpl; auto.
  - unfold Map.Delete. destruct (Map.vals m); auto.
  - unfold Map.GetOrSet.
    destruct (match Map.vals m with
              | Some vs => comma_ok (vs !! key)
              | None => (zero, false)
              end) as [res [|]]; auto.
  - unfold Map.Pop. destruct (Map.vals m); [|auto]. destruct ord as [|[k v] ?]; auto.
  - unfold Map.UnmarshalJSON. destruct (decode_map _ _); auto.
  - unfold Map.UnmarshalBinary, Map.BinaryDecode. destruct (gob_Decode _ _); auto.
  - unfold Map.BinaryDecode. destruct (gob_Decode _ _); auto.
Qed.

Lemma after_version_bumps c m :
  Map.bumps c m → Map.Version (after c m) = incr64 (Map.Version m).
Proof.
  destruct c; simpl; try done.
  unfold Map.Len, Map.Delete, len. destruct (Map.vals m); [done|lia].
Qed.

Lemma run_snoc calls c m : run (calls ++ [c]) m = after c (run calls m).
Proof. unfold Map.run. by rewrite foldl_snoc. Qed.

Lemma run_app calls1 calls2 m : run (calls1 ++ calls2) m = run calls2 (run calls1 m).
Proof. unfold Map.run. by rewrite foldl_app. Qed.

(** While the counter cannot reach [2^64] it grows by at most one a call. *)
Lemma run_version_bounds calls m :
  (Map.Version m + N.of_nat (length calls) < uint64_modulus)%N →
  (Map.Version m ≤ Map.Version (run calls m)
   ≤ Map.Version m + N.of_nat (length calls))%N.
Proof.
  induction calls as [|c calls IH] using rev_ind; intros Hroom.
  - simpl. lia.
  - rewrite length_app in Hroom. simpl in Hroom.
    rewrite run_snoc, length_app. simpl.
    destruct (after_version c (run calls m)) as [-> | ->].
    + lia.
    + rewrite incr64_small; lia.
Qed.

End version.

(** C5, as amended.  Along a sequence of calls that leaves the 64-bit
    counter room (the version at the start plus the number of calls is
    below [2^64]), [Version] never decreases from one call to the next, is
    at the end at least what it was at the start, and is strictly larger
    after every [Set], every [PopAll] and every [Delete] on a store that
    holds an entry.  ([Increment] is not among the methods of the store.) *)
Theorem Version_non_decreasing
    (K : Type) `(Countable K) (T : Type) (zK : Zero K) (zT : Zero T)
    (json_read : string → json_doc K T)
    (gob_Decode : string → option (gmap K T) → option (gmap K T) * option error)
    (calls : list (Map.call K T)) (m : Map.Map K T) :
  (Map.Version m + N.of_nat (length calls) < uint64_modulus)%N →
  (Map.Version m ≤ Map.Version (Map.run json_read gob_Decode calls m))%N ∧
  ∀ (before : list (Map.call K T)) (c : Map.call K T) (rest : list (Map.call K T)),
    calls = before ++ c :: rest →
    let m1 := Map.run json_read gob_Decode before m in
    let m2 := Map.after json_read gob_Decode c m1 in
    (Map.Version m1 ≤ Map.Version m2)%N ∧
    (Map.bumps c m1 → (Map.Version m1 < Map.Version m2)%N).
Proof.
  intros Hroom. split.
  - by apply run_version_bounds.
  - intros before c rest -> m1 m2.
    rewrite length_app in Hroom. simpl in Hroom.
    assert (Map.Version m1 + 1 < uint64_modulus)%N as Hm1.
    { pose proof (run_version_bounds json_read gob_Decode before m) as Hb.
      fold m1 in Hb. lia. }
    split.
    + destruct (after_version json_read gob_Decode c m1) as [Heq|Heq];
        subst m2; rewrite Heq; [lia|]. rewrite incr64_small; lia.
    + intros Hb%(after_version_bumps json_read gob_Decode).
      subst m2. rewrite Hb, incr64_small; lia.
Qed.

(** [n] calls of [Set] in a row add [n] to the counter, modulo [2^64]. *)
Lemma Version_iter_Set {K : Type} `{Countable K} {T : Type}
    (key : K) (value : T) (m : Map.Map K T) (n : N) :
  (Map.Version m < uint64_modulus)%N →
  Map.Version (N.iter n (Map.Set_ key value) m)
  = ((Map.Version m + n) mod uint64_modulus)%N.
Proof.
  intros Hm. induction n as [|n IH] using N.peano_ind.
  - simpl. rewrite N.add_0_r, N.mod_small; done.
  - rewrite N.iter_succ. unfold Map.Set_ at 1, Map.Version at 1. simpl.
    change (Map.ver ?x) with (Map.Version x). rewrite IH.
    unfold incr64. rewrite N.Div0.add_mod_idemp_l.
    f_equal. lia.
Qed.

Lemma Version_Set {K : Type} `{Countable K} {T : Type}
    (key : K) (value : T) (m : Map.Map K T) :
  Map.Version (Map.Set_ key value m) = incr64 (Map.Version m).
Proof. reflexivity. Qed.

(** C5 as stated fails at the end of the counter's range: [2^64 - 1] calls of
    Set on a new store bring the version to [2^64 - 1], and the next Set
    takes it to 0. *)
Lemma Version_wraps_around :
  Map.Version (N.iter (2 ^ 64 - 1) (Map.Set_ "a"%string 0%Z) Map.zero_Map) = (2 ^ 64 - 1)%N ∧
  Map.Version (Map.Set_ "a"%string 0%Z
                 (N.iter (2 ^ 64 - 1) (Map.Set_ "a"%string 0%Z) Map.zero_Map)) = 0%N ∧
  (Map.Version (Map.Set_ "a"%string 0%Z
                  (N.iter (2 ^ 64 - 1) (Map.Set_ "a"%string 0%Z) Map.zero_Map))
   < Map.Version (N.iter (2 ^ 64 - 1) (Map.Set_ "a"%string 0%Z) Map.zero_Map))%N.
Proof.
  rewrite !Version_Set, !Version_iter_Set by reflexivity.
  repeat split; reflexivity.
Qed.

(** ** JSON *)

Section json.
Context {K : Type} `{Countable K} {T : Type}.

Implicit Types (m t : Map.Map K T) (ord : list (K * T)).

Lemma KeyValues_traversal m ord :
  traversal (Map.vals m) ord → Map.KeyValues ord m = default ∅ (Map.vals m).
Proof.
  unfold traversal, Map.KeyValues. destruct (Map.vals m) as [vs|]; simpl; [|done].
  apply foldl_insert_traversal.
Qed.

(** Decoding an object stores its members over the entries the store
    already holds; it removes none of them. *)
Lemma UnmarshalJSON_object (json_read : string → json_doc K T)
    (data : string) (members : list (K * T)) (err : option error) m :
  json_read data = JObject members err →
  Map.UnmarshalJSON json_read data m
  = ({| Map.ver := incr64 (Map.ver m);
        Map.vals := Some (list_to_map (reverse members) ∪ default ∅ (Map.vals m)) |},
     err).
Proof.
  intros Hdoc. unfold Map.UnmarshalJSON, decode_map. rewrite Hdoc.
  by rewrite foldl_insert_union.
Qed.

Lemma UnmarshalJSON_keeps_other_keys (json_read : string → json_doc K T)
    (data : string) (members : list (K * T)) (err : option error) m (key : K) :
  json_read data = JObject members err →
  key ∉ members.*1 →
  default ∅ (Map.vals (Map.UnmarshalJSON json_read data m).1) !! key
  = default ∅ (Map.vals m) !! key.
Proof.
  intros Hdoc Hkey. rewrite (UnmarshalJSON_object _ _ _ _ _ Hdoc). simpl.
  apply lookup_union_r. apply not_elem_of_list_to_map_1.
  by rewrite fmap_reverse, elem_of_reverse.
Qed.

End json.


(** C2.  The code at [{"b":2}] decoded into a store that holds ["a": 1]:
    the decode succeeds and the store then holds both ["a": 1] and
    ["b": 2].  The entry of the key ["a"], which the document does not
    mention, is still there: [Decode(&m.vals)] fills the map the store
    already has. *)
Theorem UnmarshalJSON_keeps_old_entries :
  Map.UnmarshalJSON Fragment.read_map Examples.b_text Examples.only_a
  = ({| Map.ver := 2; Map.vals := Some (<["b" := 2]> {["a" := 1]}) |}, None) ∧
  Map.KeyValues [("a", 1); ("b", 2)]
    (Map.UnmarshalJSON Fragment.read_map Examples.b_text Examples.only_a).1
  = <["b" := 2]> {["a" := 1]} ∧
  Map.Exists "a" (Map.UnmarshalJSON Fragment.read_map Examples.b_text Examples.only_a).1
  = true.
Proof. repeat split; vm_compute; reflexivity. Qed.

(** ** The display form of Set *)

(** Strings renders the positions [0], [1], ... of the keys, one for each
    key, never the keys. *)
Lemma Strings_are_indices {K : Type} `{Countable K}
    (ord : list (K * unit)) (s : Set_.Set_ K) :
  traversal (Set_.vals s) ord →
  Set_.Strings ord s = (λ i : nat, pretty (Z.of_nat i)) <$> seq 0 (Z.to_nat (Set_.Size s)).
Proof.
  intros Hord. pose proof (traversal_length _ _ Hord) as Hlen.
  unfold Set_.Strings, Set_.Values, Set_.Size, mapKeys, range_indices in *.
  destruct (Set_.vals s) as [vs|]; simpl in *.
  - rewrite length_fmap. rewrite <- Hlen, Nat2Z.id.
    by rewrite <- list_fmap_compose.
  - by destruct ord.
Qed.

(** C3.  The code at [NewSet([]string{"abc"})]: Strings is the one string
    ["0"] and String is the text [["0"]]: one element for the one key, and
    the element is the index 0, not the encoding ["abc"] of the key. *)
Theorem Set_String_renders_indices :
  Set_.Strings Examples.abc_order Examples.set_abc = ["0"%string] ∧
  Set_.String Examples.abc_order Examples.set_abc = "[" +:+ Fragment.q "0" +:+ "]" ∧
  encString (IsString "abc") ∉ Set_.Strings Examples.abc_order Examples.set_abc.
Proof.
  split; [reflexivity|]. split; [reflexivity|].
  intros [Habs|Habs]%elem_of_cons; [discriminate Habs|by apply elem_of_nil in Habs].
Qed.

(** ** Increment *)

(** C1.  map.go declares no method [Increment] on [*Map]: the body is kept
    in a comment, and the calls [m.Increment(...)] of TestMap_Increment name
    a method the type does not have. *)
Theorem Increment_is_not_declared :
  Map.has_method "Increment" = false ∧ Map.has_method "Set" = true.
Proof. split; reflexivity. Qed.

(** The body kept in the comment, read with integer addition, gives the
    values TestMap_Increment expects. *)
Remark Increment_disabled_scenario :
  let step key delta m := (Map.Increment_disabled Z.add key delta m).2 in
  let m := step "def" (-56) (step "abc" 3 (step "abc" 20 (step "abc" 100
             (Map.Set_ "def" 456 Map.zero_Map)))) in
  Map.Get "abc" m = 123 ∧ Map.Get "def" m = 400 ∧ Map.Version m = 5%N.
Proof. repeat split; reflexivity. Qed.

(** * The tests of map_test.go *)

(** TestMap_init *)
Example TestMap_init :
  Map.Get 123 (Map.zero_Map (K := Z) (T := string)) = EmptyString ∧
  Map.Len (Map.zero_Map (K := Z) (T := string)) = 0.
Proof. split; reflexivity. Qed.

(** TestMap_Set *)
Example TestMap_Set :
  let m : Map.Map string Z := Map.Set_ "bb" 222 (Map.Set_ "aa" 111 Map.zero_Map) in
  Map.Get "aa" (Map.zero_Map (K := string) (T := Z)) = 0 ∧
  Map.Get "c" m = 0 ∧
  Map.Exists "aa" m = true ∧ Map.Exists "bb" m = true ∧ Map.Exists "cc" m = false ∧
  Map.Get "aa" m = 111 ∧ Map.Get "bb" m = 222 ∧ Map.Len m = 2.
Proof. repeat split; reflexivity. Qed.

(** TestMap_Exists *)
Example TestMap_Exists :
  let m0 : Map.Map Z string := Map.zero_Map in
  let m := Map.Set_ 2 "bb" (Map.Set_ 1 "aa" (Map.Set_ 0 "0" m0)) in
  Map.Exists 0 m0 = false ∧ Map.Exists 1 m0 = false ∧
  Map.Exists 0 m = true ∧ Map.Exists 1 m = true ∧ Map.Exists 2 m = true ∧
  Map.Exists 666 m = false.
Proof. repeat split; reflexivity. Qed.

(** TestMap_Delete *)
Example TestMap_Delete :
  let m : Map.Map Z string :=
    Map.Delete 111
      (Map.Set_ 222 "bbb" (Map.Set_ 111 "aaa" (Map.Set_ 0 "000" Map.zero_Map))) in
  Map.Exists 111 m = false ∧ Map.Get 111 m = EmptyString ∧ Map.Len m = 2.
Proof. repeat split; reflexivity. Qed.

(** TestMap_Values, in either order of the range. *)
Example TestMap_Values :
  let m : Map.Map string Z := Map.Set_ "def" 456 (Map.Set_ "abc" 123 Map.zero_Map) in
  Map.Len m = 2 ∧
  Map.Values [("abc", 123); ("def", 456)] m = [123; 456] ∧
  Map.Values [("def", 456); ("abc", 123)] m = [456; 123].
Proof. repeat split; reflexivity. Qed.

(** TestMap_String *)
Example TestMap_String :
  Map.String Fragment.Marshal_map Examples.abc_def = Examples.abc_def_text.
Proof. vm_compute. reflexivity. Qed.

(** TestMap_MarshalJSON, in either order of the range. *)
Example TestMap_MarshalJSON :
  Map.MarshalJSON Fragment.Marshal_map [("abc", 123); ("def", 456)] Examples.abc_def
  = (Examples.abc_def_text, None) ∧
  Map.MarshalJSON Fragment.Marshal_map Examples.def_abc_order Examples.abc_def
  = (Examples.abc_def_text, None).
Proof. split; vm_compute; reflexivity. Qed.

(** * Instances *)

(** C4 as stated fails: ["b"] is not a key of the store that holds
    ["a": 1], and [Delete("b")] takes the version from 1 to 2.  The same
    happens in a Set. *)
Lemma Delete_absent_key_adds_to_version :
  (Map.Exists "b" Examples.only_a = false ∧
   Map.Version Examples.only_a = 1%N ∧
   Map.Version (Map.Delete "b" Examples.only_a) = 2%N) ∧
  (Set_.Exists "zzz" Examples.set_abc = false ∧
   Set_.Version Examples.set_abc = 0%N ∧
   Set_.Version (Set_.Delete "zzz" Examples.set_abc) = 1%N).
Proof. repeat split; reflexivity. Qed.

(** C4, as amended, at the store that holds ["a": 1] and at the set of
    ["abc"]. *)
Lemma Delete_absent_key_witness :
  (Map.Exists "b" Examples.only_a = false ∧
   Map.vals (Map.Delete "b" Examples.only_a) = Map.vals Examples.only_a ∧
   Map.Version (Map.Delete "b" Examples.only_a) = incr64 (Map.Version Examples.only_a)) ∧
  (Set_.Exists "zzz" Examples.set_abc = false ∧
   Set_.vals (Set_.Delete "zzz" Examples.set_abc) = Set_.vals Examples.set_abc ∧
   Set_.Version (Set_.Delete "zzz" Examples.set_abc) = incr64 (Set_.Version Examples.set_abc)).
Proof.
  split.
  - split; [reflexivity|].
    exact (proj1 Delete_absent_key string _ _ Z _ Examples.only_a "b"%string eq_refl).
  - split; [reflexivity|].
    exact (proj2 Delete_absent_key string _ _ Examples.set_abc "zzz"%string eq_refl).
Defined.

(** C5, as amended, along a sequence of ten calls on a new store. *)
Lemma Version_non_decreasing_witness :
  (Map.Version (Map.zero_Map (K := string) (T := Z))
   + N.of_nat (length Examples.some_calls) < uint64_modulus)%N ∧
  (Map.Version (Map.zero_Map (K := string) (T := Z))
   ≤ Map.Version (Map.run Fragment.read_map Fragment.gob_Decode
                    Examples.some_calls Map.zero_Map))%N.
Proof.
  split; [reflexivity|].
  apply (Version_non_decreasing string _ Z _ _ Fragment.read_map Fragment.gob_Decode
           Examples.some_calls Map.zero_Map).
  reflexivity.
Defined.


(** C8 at the store that holds ["a": 1], with a supplier that counts its
    calls: none for the key ["a"], one for the key ["b"]. *)
Lemma GetOrSet_witness :
  (Map.Exists "a" Examples.only_a = true ∧
   Map.GetOrSet "a" Examples.counting_supplier Examples.only_a 0%nat
   = (1, Examples.only_a, 0%nat)) ∧
  (Map.Exists "b" Examples.only_a = false ∧
   Map.GetOrSet "b" Examples.counting_supplier Examples.only_a 0%nat
   = (7, Map.Set_ "b" 7 Examples.only_a, 1%nat)).
Proof.
  split; (split; [reflexivity|]).
  - exact (proj1 (GetOrSet_present_or_absent string _ Z _ nat Examples.only_a
                    "a"%string Examples.counting_supplier 0%nat) eq_refl).
  - exact (proj1 (proj2 (GetOrSet_present_or_absent string _ Z _ nat Examples.only_a
                           "b"%string Examples.counting_supplier 0%nat) eq_refl)).
Defined.

(** C9 at the store of two entries with the number 1 drawn, and at the set
    of two keys with the number 0 drawn. *)
Lemma Random_never_panics_witness :
  (0 < Map.Len Examples.abc_def ∧
   ∃ k v, Map.Random 1 Examples.def_abc_order Examples.abc_def = Returned (k, v)) ∧
  (0 < Set_.Size Examples.set_xy ∧
   ∃ k, Set_.Random 0 Examples.yx_order Examples.set_xy = Returned k).
Proof.
  split; (split; [reflexivity|]).
  - destruct (proj1 Random_never_panics string _ _ Z _ _
                Examples.abc_def Examples.def_abc_order 1) as (k & v & Hr & _).
    + reflexivity.
    + two_entry_traversal.
    + split; [discriminate|reflexivity].
    + by exists k, v.
  - destruct (proj2 Random_never_panics string _ _ _
                Examples.set_xy Examples.yx_order 0) as (k & Hr & _).
    + reflexivity.
    + two_entry_traversal.
    + split; [discriminate|reflexivity].
    + by exists k.
Defined.

(** C10 at the set of ["abc"]: the text [abc] is not JSON, and the empty
    gob stream does not decode. *)
Lemma Set_failed_decode_witness :
  (is_Some (Fragment.Unmarshal_strings "abc").2 ∧
   Set_.UnmarshalJSON Fragment.Unmarshal_strings "abc" Examples.set_abc
   = (Examples.set_abc, Some "json: invalid input"%string)) ∧
  (is_Some (Examples.gob_Decode_strings "").2 ∧
   Set_.BinaryDecode Examples.gob_Decode_strings "" Examples.set_abc
   = (Examples.set_abc, Some "EOF"%string)).
Proof.
  split; (split; [by eexists|]).
  - exact (proj1 (Set_failed_decode_leaves_store string _ Fragment.Unmarshal_strings
                    Examples.gob_Decode_strings "abc" Examples.set_abc)
             (ex_intro _ "json: invalid input"%string eq_refl)).
  - exact (proj2 (Set_failed_decode_leaves_store string _ Fragment.Unmarshal_strings
                    Examples.gob_Decode_strings "" Examples.set_abc)
             (ex_intro _ "EOF"%string eq_refl)).
Defined.

(** * Further properties of Map *)

Section map_reads.
Context {K : Type} `{Countable K} {T : Type} `{Zero T}.

Implicit Types (m : Map.Map K T) (key : K).

(** The entries of a store; none for nil storage. *)
Lemma Get_lookup m key :
  Map.Get key m = default zero (default ∅ (Map.vals m) !! key).
Proof.
  unfold Map.Get. destruct (Map.vals m) as [vs|]; simpl.
  - by destruct (vs !! key).
  - by rewrite lookup_empty.
Qed.

Lemma Exists_lookup m key :
  Map.Exists key m = bool_decide (is_Some (default ∅ (Map.vals m) !! key)).
Proof.
  unfold Map.Exists. destruct (Map.vals m) as [vs|]; simpl.
  - by destruct (vs !! key).
  - by rewrite lookup_empty.
Qed.

Lemma Exists_true_lookup m key :
  Map.Exists key m = true → ∃ v, default ∅ (Map.vals m) !! key = Some v.
Proof. rewrite Exists_lookup. by intros Hs%bool_decide_eq_true_1. Qed.

Lemma Exists_false_lookup m key :
  Map.Exists key m = false → default ∅ (Map.vals m) !! key = None.
Proof.
  rewrite Exists_lookup. intros Hs%bool_decide_eq_false_1.
  by apply eq_None_not_Some.
Qed.

Lemma Len_size m : Map.Len m = Z.of_nat (size (default ∅ (Map.vals m))).
Proof.
  unfold Map.Len, len. destruct (Map.vals m); simpl; [done|].
  by rewrite map_size_empty.
Qed.

Lemma entries_Set m key (value : T) :
  default ∅ (Map.vals (Map.Set_ key value m)) = <[key := value]> (default ∅ (Map.vals m)).
Proof. unfold Map.Set_. simpl. by destruct (Map.vals m). Qed.

Lemma entries_Delete m key :
  default ∅ (Map.vals (Map.Delete key m)) = delete key (default ∅ (Map.vals m)).
Proof.
  unfold Map.Delete. destruct m as [v [vs|]]; simpl; [done|].
  by rewrite delete_empty.
Qed.

End map_reads.

(** X1.  A [Set] is read back by [Get] and [Exists] under its key and changes
    the answer for no other key; [Len] grows by one exactly when the key was
    not there; the version goes up by one. *)
Theorem Map_Set_then_read
    (K : Type) `(Countable K) (T : Type) (zT : Zero T)
    (m : Map.Map K T) (key key' : K) (value : T) :
  Map.Get key' (Map.Set_ key value m)
    = (if decide (key' = key) then value else Map.Get key' m) ∧
  Map.Exists key' (Map.Set_ key value m)
    = (if decide (key' = key) then true else Map.Exists key' m) ∧
  Map.Len (Map.Set_ key value m)
    = (if Map.Exists key m then Map.Len m else Map.Len m + 1) ∧
  Map.Version (Map.Set_ key value m) = incr64 (Map.Version m).
Proof.
  rewrite !Get_lookup, !Exists_lookup, !Len_size, entries_Set.
  rewrite lookup_insert, map_size_insert.
  split; [|split; [|split]].
  - destruct (decide (key = key')) as [->|Hne];
      [by rewrite decide_True | by rewrite decide_False by congruence].
  - destruct (decide (key = key')) as [->|Hne];
      [by rewrite decide_True | by rewrite decide_False by congruence].
  - destruct (default ∅ (Map.vals m) !! key) as [v|] eqn:Hv.
    + rewrite bool_decide_eq_true_2; [done|by eexists].
    + rewrite bool_decide_eq_false_2; [simpl; lia|apply is_Some_None].
  - done.
Qed.

(** X2.  After [Delete] the key is gone: [Exists] is false and [Get] gives the
    zero value; the answers for every other key stay; [Len] drops by one
    exactly when the key was there. *)
Theorem Map_Delete_then_read
    (K : Type) `(Countable K) (T : Type) (zT : Zero T)
    (m : Map.Map K T) (key key' : K) :
  Map.Get key' (Map.Delete key m)
    = (if decide (key' = key) then zero else Map.Get key' m) ∧
  Map.Exists key' (Map.Delete key m)
    = (if decide (key' = key) then false else Map.Exists key' m) ∧
  Map.Len (Map.Delete key m)
    = (if Map.Exists key m then Map.Len m - 1 else Map.Len m).
Proof.
  rewrite !Get_lookup, !Exists_lookup, !Len_size, entries_Delete.
  rewrite lookup_delete, map_size_delete.
  split; [|split].
  - destruct (decide (key = key')) as [->|Hne];
      [by rewrite decide_True | by rewrite decide_False by congruence].
  - destruct (decide (key = key')) as [->|Hne];
      [by rewrite decide_True | by rewrite decide_False by congruence].
  - destruct (default ∅ (Map.vals m) !! key) as [v|] eqn:Hv.
    + rewrite bool_decide_eq_true_2; [|by eexists].
      assert (size (default ∅ (Map.vals m)) ≠ 0%nat) as Hne.
      { intros Hz%map_size_empty_inv. rewrite Hz, lookup_empty in Hv. done. }
      simpl. lia.
    + rewrite bool_decide_eq_false_2; [done|apply is_Some_None].
Qed.

(** X3.  A key that is not in the store reads as the zero value, and [Len] is 0
    exactly when no key is in the store. *)
Theorem Map_absent_and_empty
    (K : Type) `(Countable K) (T : Type) (zT : Zero T) (m : Map.Map K T) :
  (∀ key : K, Map.Exists key m = false → Map.Get key m = zero) ∧
  (Map.Len m = 0 ↔ ∀ key : K, Map.Exists key m = false) ∧
  0 ≤ Map.Len m.
Proof.
  split; [|split].
  - intros key Habs%Exists_false_lookup. by rewrite Get_lookup, Habs.
  - rewrite Len_size. split.
    + intros Hz key. rewrite Exists_lookup.
      assert (default ∅ (Map.vals m) = ∅) as -> by (apply map_size_empty_inv; lia).
      rewrite lookup_empty. apply bool_decide_eq_false_2, is_Some_None.
    + intros Hall.
      assert (default ∅ (Map.vals m) = ∅) as ->.
      { apply map_empty. intros key. by apply Exists_false_lookup. }
      by rewrite map_size_empty.
  - rewrite Len_size. lia.
Qed.

(** X4.  [Clear] and [PopAll] leave nil storage: the store is empty, [PopAll]
    hands out exactly the storage it took, a [Delete] that follows changes
    nothing, not even the version, and a [Set] that follows starts from an
    empty map. *)
Theorem Map_Clear_and_PopAll
    (K : Type) `(Countable K) (T : Type) (zT : Zero T)
    (m : Map.Map K T) (key : K) (value : T) (ord : list (K * T)) :
  (Map.Len (Map.Clear m) = 0 ∧
   Map.KeyValues ord (Map.Clear m) = ∅ ∧
   Map.Version (Map.Clear m) = incr64 (Map.Version m) ∧
   Map.Delete key (Map.Clear m) = Map.Clear m ∧
   Map.vals (Map.Set_ key value (Map.Clear m)) = Some {[key := value]}) ∧
  ((Map.PopAll m).1 = Map.vals m ∧
   Map.Len (Map.PopAll m).2 = 0 ∧
   Map.KeyValues ord (Map.PopAll m).2 = ∅ ∧
   Map.Version (Map.PopAll m).2 = incr64 (Map.Version m) ∧
   Map.Delete key (Map.PopAll m).2 = (Map.PopAll m).2 ∧
   Map.vals (Map.Set_ key value (Map.PopAll m).2) = Some {[key := value]}).
Proof.
  unfold Map.Set_. simpl. rewrite insert_empty. repeat split.
Qed.

(** X5.  [Pop] on a store that holds an entry returns an entry of the store, the
    first of the traversal, and removes just that one: the key is gone,
    every other entry stays, [Len] drops by one, the version goes up by one,
    and the rest of the traversal visits the store that is left. *)
Theorem Map_Pop_removes_one_entry
    (K : Type) `(Countable K) (T : Type) (zK : Zero K) (zT : Zero T)
    (m : Map.Map K T) (ord : list (K * T)) :
  traversal (Map.vals m) ord →
  0 < Map.Len m →
  ∃ (key : K) (value : T) (rest : list (K * T)),
    ord = (key, value) :: rest ∧
    (Map.Pop ord m).1 = (key, value) ∧
    Map.Exists key m = true ∧ Map.Get key m = value ∧
    Map.Exists key (Map.Pop ord m).2 = false ∧
    (∀ key' : K, key' ≠ key →
       Map.Exists key' (Map.Pop ord m).2 = Map.Exists key' m ∧
       Map.Get key' (Map.Pop ord m).2 = Map.Get key' m) ∧
    Map.Len (Map.Pop ord m).2 = Map.Len m - 1 ∧
    Map.Version (Map.Pop ord m).2 = incr64 (Map.Version m) ∧
    traversal (Map.vals (Map.Pop ord m).2) rest.
Proof.
  intros Hord Hpos.
  pose proof (traversal_length _ _ Hord) as Hlen. fold (Map.Len m) in Hlen.
  destruct ord as [|[key value] rest]; [simpl in Hlen; lia|].
  pose proof (traversal_lookup _ _ 0 key value Hord eq_refl) as Hkey.
  exists key, value, rest.
  destruct m as [v [vs|]]; simpl in *; [|by rewrite lookup_empty in Hkey].
  unfold Map.Pop, Map.Exists, Map.Get, Map.Len, Map.Version, traversal in *. simpl in *.
  rewrite Hkey, lookup_delete_eq. simpl.
  split; [done|]. split; [done|]. split; [done|]. split; [done|]. split; [done|].
  split; [|split; [|split]].
  - intros key' Hne. by rewrite lookup_delete_ne.
  - rewrite map_size_delete, Hkey.
    assert (size vs ≠ 0%nat) by lia. lia.
  - done.
  - assert (NoDup ((key, value) :: rest)) as Hnd.
    { rewrite Hord. apply NoDup_map_to_list. }
    apply NoDup_cons in Hnd as [Hnotin Hnd].
    apply NoDup_Permutation; [done|apply NoDup_map_to_list|].
    intros [k x]. rewrite elem_of_map_to_list.
    rewrite lookup_delete_Some, <- elem_of_map_to_list, <- Hord, elem_of_cons.
    split.
    + intros Hin. split; [|by right].
      intros Heq. subst k. apply Hnotin.
      assert (x = value) as ->; [|done].
      assert ((key, x) ∈ map_to_list vs) as Hx by (rewrite <- Hord; by right).
      apply elem_of_map_to_list in Hx. congruence.
    + intros [Hne [Heq|Hin]]; [congruence|done].
Qed.

(** X6.  On a store that holds no entry every read gives the zero value or the
    empty collection, and [Pop] and the [Random] family return zero values
    without touching the store or the version, whatever number is drawn. *)
Theorem Map_empty_store
    (K : Type) `(Countable K) (T : Type) (zK : Zero K) (zT : Zero T)
    (m : Map.Map K T) (ord : list (K * T)) (n : Z) :
  Map.Len m = 0 →
  traversal (Map.vals m) ord →
  Map.Pop ord m = ((zero, zero), m) ∧
  Map.Random n ord m = Returned (zero, zero) ∧
  Map.RandomKey n ord m = Returned zero ∧
  Map.RandomValue n ord m = Returned zero ∧
  Map.KeyValues ord m = ∅ ∧
  Map.Values ord m = [] ∧
  default [] (Map.Keys ord m) = [].
Proof.
  intros Hempty Hord.
  pose proof (traversal_length _ _ Hord) as Hlen. fold (Map.Len m) in Hlen.
  destruct ord as [|kv rest]; [|simpl in Hlen; lia].
  unfold Map.RandomKey, Map.RandomValue, Map.Random, Map.Pop, Map.KeyValues,
    Map.Values, Map.Keys, mapKeys.
  unfold Map.Len in Hempty. rewrite Hempty. simpl.
  by destruct (Map.vals m).
Qed.

(** X7.  [Keys] lists every key of the store once and nothing else, [Values]
    has one element for each entry, and both have [Len] elements; [Keys] is
    nil exactly when the storage is nil.  [KeyValues] is the map of the
    entries whatever the order of the traversal. *)
Theorem Map_Keys_and_Values
    (K : Type) `(Countable K) (T : Type) (zT : Zero T)
    (m : Map.Map K T) (ord : list (K * T)) :
  traversal (Map.vals m) ord →
  NoDup (default [] (Map.Keys ord m)) ∧
  (∀ key : K, key ∈ default [] (Map.Keys ord m) ↔ Map.Exists key m = true) ∧
  Z.of_nat (length (default [] (Map.Keys ord m))) = Map.Len m ∧
  Z.of_nat (length (Map.Values ord m)) = Map.Len m ∧
  (∀ value : T, value ∈ Map.Values ord m ↔ ∃ key : K, Map.Exists key m = true ∧ Map.Get key m = value) ∧
  (Map.Keys ord m = None ↔ Map.vals m = None) ∧
  (∀ key : K, Map.KeyValues ord m !! key
              = if Map.Exists key m then Some (Map.Get key m) else None).
Proof.
  intros Hord.
  pose proof (traversal_length _ _ Hord) as Hlen.
  pose proof (KeyValues_traversal _ _ Hord) as Hkv.
  assert (∀ key, Map.KeyValues ord m !! key
                 = if Map.Exists key m then Some (Map.Get key m) else None) as Hlook.
  { intros key. rewrite Hkv, Exists_lookup, Get_lookup.
    by destruct (default ∅ (Map.vals m) !! key). }
  assert (∀ key v, default ∅ (Map.vals m) !! key = Some v
                   ↔ Map.Exists key m = true ∧ Map.Get key m = v) as Hentry.
  { intros key v. rewrite Exists_lookup, Get_lookup, bool_decide_eq_true.
    destruct (default ∅ (Map.vals m) !! key) as [x|]; simpl.
    - split; [intros [= ->]; split; [by eexists|done] | by intros [_ ->]].
    - split; [done|]. by intros [[? ?] _]. }
  clear Hkv. unfold Map.Keys, Map.Values, mapKeys, Map.Len, traversal in *.
  destruct (Map.vals m) as [vs|]; simpl in *.
  - split; [rewrite Hord; apply NoDup_fst_map_to_list|].
    split.
    { intros key. rewrite Hord, list_elem_of_fmap. split.
      - intros [[k v] [-> Hin%elem_of_map_to_list]]. by apply (Hentry k v).
      - intros Hex. destruct (vs !! key) as [v|] eqn:Hv.
        + exists (key, v). split; [done|]. by apply elem_of_map_to_list.
        + specialize (Hlook key). rewrite Hex in Hlook.
          exfalso. destruct (Hentry key (Map.Get key m)) as [_ Hback].
          specialize (Hback (conj Hex eq_refl)). congruence. }
    split; [by rewrite length_fmap|]. split; [by rewrite length_fmap|].
    split; [|split; [done|done]].
    intros value. rewrite Hord, list_elem_of_fmap. split.
    + intros [[k v] [-> Hin%elem_of_map_to_list]]. exists k. by apply Hentry.
    + intros (key & Hex). apply Hentry in Hex.
      exists (key, value). split; [done|]. by apply elem_of_map_to_list.
  - split; [apply NoDup_nil_2|].
    split.
    { intros key. split; [by intros ?%elem_of_nil|].
      intros Hex. destruct (Hentry key (Map.Get key m)) as [_ Hback].
      specialize (Hback (conj Hex eq_refl)). by rewrite lookup_empty in Hback. }
    split; [done|]. split; [done|]. split; [|done].
    intros value. split; [by intros ?%elem_of_nil|].
    intros (key & Hex). apply Hentry in Hex. by rewrite lookup_empty in Hex.
Qed.

(** X8.  Every decode of a Map counts as a change, also one that fails:
    [UnmarshalJSON], [BinaryDecode] and [UnmarshalBinary] add one to the
    version whatever the decoder reports and return its error.  Input the
    JSON decoder refuses leaves the entries as they were. *)
Theorem Map_decode_always_bumps_version
    (K : Type) `(Countable K) (T : Type)
    (json_read : string → json_doc K T)
    (gob_Decode : string → option (gmap K T) → option (gmap K T) * option error)
    (data : string) (m : Map.Map K T) :
  Map.Version (Map.UnmarshalJSON json_read data m).1 = incr64 (Map.Version m) ∧
  Map.Version (Map.BinaryDecode gob_Decode data m).1 = incr64 (Map.Version m) ∧
  Map.UnmarshalBinary gob_Decode data m = Map.BinaryDecode gob_Decode data m ∧
  (Map.BinaryDecode gob_Decode data m).2 = (gob_Decode data (Map.vals m)).2 ∧
  Map.vals (Map.BinaryDecode gob_Decode data m).1 = (gob_Decode data (Map.vals m)).1 ∧
  (∀ e : error, json_read data = JInvalid e →
     Map.UnmarshalJSON json_read data m
     = ({| Map.ver := incr64 (Map.ver m); Map.vals := Map.vals m |}, Some e)).
Proof.
  unfold Map.UnmarshalJSON, Map.UnmarshalBinary, Map.BinaryDecode, Map.Version.
  destruct (decode_map (json_read data) (Map.vals m)) as [vs1 err1] eqn:Hjson.
  destruct (gob_Decode data (Map.vals m)) as [vs2 err2].
  repeat split.
  intros e He. rewrite He in Hjson. simpl in Hjson. by injection Hjson as <- <-.
Qed.

(** X9.  What a JSON document does to a Map: null leaves nil storage; an object
    adds its members to the entries the store holds, so a key the object
    does not mention reads as before and a key it mentions reads as its last
    member of that key. *)
Theorem Map_UnmarshalJSON_effect
    (K : Type) `(Countable K) (T : Type) (zT : Zero T)
    (json_read : string → json_doc K T) (data : string) (m : Map.Map K T) :
  (json_read data = JNull →
     Map.UnmarshalJSON json_read data m
     = ({| Map.ver := incr64 (Map.ver m); Map.vals := None |}, None)) ∧
  (∀ (members : list (K * T)) (err : option error),
     json_read data = JObject members err →
     (Map.UnmarshalJSON json_read data m).2 = err ∧
     Map.vals (Map.UnmarshalJSON json_read data m).1 ≠ None ∧
     (∀ key : K, key ∉ members.*1 →
        Map.Exists key (Map.UnmarshalJSON json_read data m).1 = Map.Exists key m ∧
        Map.Get key (Map.UnmarshalJSON json_read data m).1 = Map.Get key m) ∧
     (∀ (key : K) (value : T) (before later : list (K * T)),
        members = before ++ (key, value) :: later → key ∉ later.*1 →
        Map.Exists key (Map.UnmarshalJSON json_read data m).1 = true ∧
        Map.Get key (Map.UnmarshalJSON json_read data m).1 = value)).
Proof.
  split.
  - intros Hnull. unfold Map.UnmarshalJSON. by rewrite Hnull.
  - intros members err Hobj.
    assert (Map.UnmarshalJSON json_read data m
            = ({| Map.ver := incr64 (Map.ver m);
                  Map.vals := Some (foldl (λ mm kv, <[kv.1 := kv.2]> mm)
                                      (default ∅ (Map.vals m)) members) |}, err)) as ->.
    { unfold Map.UnmarshalJSON. by rewrite Hobj. }
    simpl. split; [done|]. split; [done|]. split.
    + intros key Hkey. rewrite !Exists_lookup, !Get_lookup. simpl.
      by rewrite foldl_insert_lookup_other.
    + intros key value before later -> Hkey.
      rewrite !Exists_lookup, !Get_lookup. simpl.
      rewrite foldl_app. simpl.
      rewrite foldl_insert_lookup_other by done.
      by rewrite lookup_insert_eq.
Qed.

(** X10.  A second [GetOrSet] of the same key never calls its supplier: it returns
    what the first call returned and leaves the store and the caller's state
    as the first call left them, whatever the two suppliers do. *)
Theorem Map_GetOrSet_twice
    (K : Type) `(Countable K) (T : Type) (zT : Zero T) (W : Type)
    (m : Map.Map K T) (key : K)
    (fn1 fn2 : Map.Map K T → W → T * Map.Map K T * W) (w : W) :
  Map.GetOrSet key fn2 (Map.GetOrSet key fn1 m w).1.2 (Map.GetOrSet key fn1 m w).2
  = Map.GetOrSet key fn1 m w.
Proof.
  unfold Map.GetOrSet at 2 3 4.
  destruct (match Map.vals m with
            | Some vs => comma_ok (vs !! key)
            | None => (zero, false)
            end) as [res ok] eqn:Hfirst.
  destruct ok.
  - simpl. unfold Map.GetOrSet. by rewrite Hfirst.
  - destruct (fn1 m w) as [[r m1] w1]. simpl.
    unfold Map.GetOrSet, Map.Set_. simpl. by rewrite lookup_insert_eq.
Qed.

(** X11.  [String] renders the storage itself and [MarshalJSON] a copy of the
    entries that is never nil.  The two give the same text once the storage
    exists; on nil storage [String] is what json.Marshal gives for a nil
    map while [MarshalJSON] is what it gives for an empty one. *)
Theorem Map_String_and_MarshalJSON
    (K : Type) `(Countable K) (T : Type)
    (json_Marshal : option (gmap K T) → string * option error)
    (m : Map.Map K T) (ord : list (K * T)) :
  traversal (Map.vals m) ord →
  (Map.vals m ≠ None →
     Map.String json_Marshal m = (Map.MarshalJSON json_Marshal ord m).1) ∧
  (Map.vals m = None →
     Map.String json_Marshal m = (json_Marshal None).1 ∧
     Map.MarshalJSON json_Marshal ord m = json_Marshal (Some ∅)) ∧
  Map.MarshalJSON json_Marshal ord m = json_Marshal (Some (default ∅ (Map.vals m))).
Proof.
  intros Hord. unfold Map.String, Map.MarshalJSON, encString.
  rewrite (KeyValues_traversal _ _ Hord).
  destruct (Map.vals m) as [vs|]; simpl.
  - split; [|split; [done|done]]. intros _. by destruct (json_Marshal (Some vs)).
  - split; [done|]. split; [|done]. intros _. split; [|done].
    by destruct (json_Marshal None).
Qed.

(** X12.  [RandomKey] and [RandomValue] on a store that holds an entry do not
    panic either: for a number drawn in range they return the key and the
    value of an entry of the store. *)
Theorem Map_RandomKey_and_RandomValue
    (K : Type) `(Countable K) (T : Type) (zK : Zero K) (zT : Zero T)
    (m : Map.Map K T) (ord : list (K * T)) (n : Z) :
  traversal (Map.vals m) ord → 0 ≤ n < Map.Len m →
  ∃ (key : K) (value : T),
    Map.RandomKey n ord m = Returned key ∧
    Map.RandomValue n ord m = Returned value ∧
    Map.Exists key m = true ∧ Map.Get key m = value ∧
    (∃ key' : K, Map.Exists key' m = true ∧ Map.Get key' m = value).
Proof.
  intros Hord Hn. pose proof (traversal_length _ _ Hord) as Hlen.
  unfold Map.Len in Hn.
  destruct (scan_finds ord n) as [[key value] [Hscan Hnth]]; [lia|].
  pose proof (traversal_lookup _ _ _ _ _ Hord Hnth) as Hkey.
  exists key, value. unfold Map.RandomKey, Map.RandomValue, Map.Random.
  rewrite Hscan. destruct (Z.ltb_spec 0 (len (Map.vals m))); [|lia]. simpl.
  rewrite Exists_lookup, Get_lookup, Hkey. simpl.
  split; [done|]. split; [done|]. split; [done|]. split; [done|].
  exists key. by rewrite Exists_lookup, Get_lookup, Hkey.
Qed.

(** X13.  Setting a key that was not in the store and deleting it again gives
    back the entries the store had, but not its version, which has gone up
    by two, and not nil storage: the storage now exists. *)
Theorem Map_Set_then_Delete
    (K : Type) `(Countable K) (T : Type) (zT : Zero T)
    (m : Map.Map K T) (key : K) (value : T) :
  Map.Exists key m = false →
  Map.vals (Map.Delete key (Map.Set_ key value m)) = Some (default ∅ (Map.vals m)) ∧
  (∀ key' : K,
     Map.Exists key' (Map.Delete key (Map.Set_ key value m)) = Map.Exists key' m ∧
     Map.Get key' (Map.Delete key (Map.Set_ key value m)) = Map.Get key' m) ∧
  Map.Len (Map.Delete key (Map.Set_ key value m)) = Map.Len m ∧
  Map.Version (Map.Delete key (Map.Set_ key value m))
  = incr64 (incr64 (Map.Version m)).
Proof.
  intros Habs%Exists_false_lookup.
  assert (Map.vals (Map.Delete key (Map.Set_ key value m))
          = Some (default ∅ (Map.vals m))) as Hvals.
  { unfold Map.Delete, Map.Set_. simpl. f_equal.
    replace (match Map.vals m with Some vs => vs | None => ∅ end)
      with (default ∅ (Map.vals m)) by by destruct (Map.vals m).
    rewrite delete_insert_eq. by apply delete_id. }
  split; [done|]. split; [|split; [|done]].
  - intros key'. by rewrite !Exists_lookup, !Get_lookup, Hvals.
  - by rewrite !Len_size, Hvals.
Qed.

(** * Further properties of Set *)

Section set_reads.
Context {K : Type} `{Countable K}.

Implicit Types (s : Set_.Set_ K) (key : K).

Lemma Set_Exists_lookup s key :
  Set_.Exists key s = bool_decide (is_Some (default ∅ (Set_.vals s) !! key)).
Proof.
  unfold Set_.Exists. destruct (Set_.vals s) as [vs|]; simpl.
  - by destruct (vs !! key).
  - by rewrite lookup_empty.
Qed.

Lemma Set_Size_size s : Set_.Size s = Z.of_nat (size (default ∅ (Set_.vals s))).
Proof.
  unfold Set_.Size, len. destruct (Set_.vals s); simpl; [done|].
  by rewrite map_size_empty.
Qed.

(** Marking the elements of a slice one after the other. *)
Lemma foldl_mark_lookup (l : list K) (m0 : gmap K unit) key :
  foldl (λ m v, <[v := tt]> m) m0 l !! key
  = if decide (key ∈ l) then Some tt else m0 !! key.
Proof.
  revert m0. induction l as [|x l IH]; intros m0; cbn [foldl].
  - case_decide as Hin; [by apply elem_of_nil in Hin|done].
  - rewrite IH. destruct (decide (key ∈ l)) as [Hin|Hnin].
    + case_decide as Hin'; [done|]. exfalso. apply Hin'. by right.
    + destruct (decide (key = x)) as [->|Hne].
      * case_decide as Hin'; [by rewrite lookup_insert_eq|].
        exfalso. apply Hin'. by left.
      * case_decide as Hin'; [|by rewrite lookup_insert_ne].
        apply elem_of_cons in Hin' as [?|?]; done.
Qed.

Lemma foldl_mark_size (l : list K) :
  size (foldl (λ m v, <[v := tt]> m) (∅ : gmap K unit) l) = length (remove_dups l).
Proof.
  rewrite <- (size_dom (D := gset K)).
  rewrite <- (size_list_to_set (C := gset K) (remove_dups l)) by apply NoDup_remove_dups.
  f_equal. apply set_eq. intros key.
  rewrite elem_of_dom, foldl_mark_lookup, lookup_empty, elem_of_list_to_set,
    elem_of_remove_dups.
  destruct (decide (key ∈ l)); split; try done.
Qed.

Lemma sliceToMap_lookup (vv : list K) key :
  Set_.sliceToMap vv !! key = if decide (key ∈ vv) then Some tt else None.
Proof. unfold Set_.sliceToMap. by rewrite foldl_mark_lookup, lookup_empty. Qed.

Lemma sliceToMap_size (vv : list K) :
  size (Set_.sliceToMap vv) = length (remove_dups vv).
Proof. apply foldl_mark_size. Qed.

Lemma remove_dups_length_NoDup (vv : list K) :
  NoDup vv → length (remove_dups vv) = length vv.
Proof.
  intros Hnd. apply Permutation_length.
  apply NoDup_Permutation; [apply NoDup_remove_dups|done|].
  intros x. apply elem_of_remove_dups.
Qed.

(** The members after a decode that succeeded. *)
Lemma Exists_after_decode (vv : list K) (v : N) key :
  Set_.Exists key {| Set_.ver := v; Set_.vals := Some (Set_.sliceToMap vv) |}
  = bool_decide (key ∈ vv).
Proof.
  rewrite Set_Exists_lookup. simpl. rewrite sliceToMap_lookup.
  destruct (decide (key ∈ vv)) as [Hin|Hnin].
  - by rewrite (bool_decide_eq_true_2 (key ∈ vv)).
  - by rewrite (bool_decide_eq_false_2 (key ∈ vv)).
Qed.

End set_reads.

(** X14.  [NewSet] builds a set with storage: its members are the elements of the
    slice, its size is the number of different elements, and its version
    is 0. *)
Theorem NewSet_members
    (K : Type) `(Countable K) (values : list K) :
  (∀ key : K, Set_.Exists key (Set_.NewSet values) = bool_decide (key ∈ values)) ∧
  Set_.Size (Set_.NewSet values) = Z.of_nat (length (remove_dups values)) ∧
  Set_.Version (Set_.NewSet values) = 0%N ∧
  Set_.vals (Set_.NewSet values) ≠ None.
Proof.
  split; [|split; [|done]].
  - intros key. rewrite Set_Exists_lookup. unfold Set_.NewSet. simpl.
    rewrite foldl_mark_lookup, lookup_empty.
    destruct (decide (key ∈ values)) as [Hin|Hnin].
    + by rewrite (bool_decide_eq_true_2 (key ∈ values)).
    + by rewrite (bool_decide_eq_false_2 (key ∈ values)).
  - rewrite Set_Size_size. unfold Set_.NewSet. simpl. by rewrite foldl_mark_size.
Qed.

(** X15.  [Set] makes its key a member and [Delete] removes it; neither changes
    whether another key is a member.  The size grows by one exactly when
    the key was new and drops by one exactly when it was a member.  Setting
    a member again changes only the version. *)
Theorem Set_Set_and_Delete
    (K : Type) `(Countable K) (s : Set_.Set_ K) (key key' : K) :
  Set_.Exists key' (Set_.Set__ key s)
    = (if decide (key' = key) then true else Set_.Exists key' s) ∧
  Set_.Exists key' (Set_.Delete key s)
    = (if decide (key' = key) then false else Set_.Exists key' s) ∧
  Set_.Size (Set_.Set__ key s)
    = (if Set_.Exists key s then Set_.Size s else Set_.Size s + 1) ∧
  Set_.Size (Set_.Delete key s)
    = (if Set_.Exists key s then Set_.Size s - 1 else Set_.Size s) ∧
  Set_.Version (Set_.Set__ key s) = incr64 (Set_.Version s) ∧
  Set_.vals (Set_.Set__ key (Set_.Set__ key s)) = Set_.vals (Set_.Set__ key s).
Proof.
  assert (default ∅ (Set_.vals (Set_.Set__ key s))
          = <[key := tt]> (default ∅ (Set_.vals s))) as Hset.
  { unfold Set_.Set__. simpl. by destruct (Set_.vals s). }
  assert (default ∅ (Set_.vals (Set_.Delete key s))
          = delete key (default ∅ (Set_.vals s))) as Hdel.
  { unfold Set_.Delete. destruct s as [v [vs|]]; simpl; [done|].
    by rewrite delete_empty. }
  rewrite !Set_Exists_lookup, !Set_Size_size, Hset, Hdel.
  rewrite lookup_insert, lookup_delete, map_size_insert, map_size_delete.
  split; [|split; [|split; [|split; [|split]]]].
  - destruct (decide (key = key')) as [->|Hne];
      [by rewrite decide_True | by rewrite decide_False by congruence].
  - destruct (decide (key = key')) as [->|Hne];
      [by rewrite decide_True | by rewrite decide_False by congruence].
  - destruct (default ∅ (Set_.vals s) !! key) as [[]|]; simpl; lia.
  - destruct (default ∅ (Set_.vals s) !! key) as [[]|] eqn:Hk; simpl; [|done].
    assert (size (default ∅ (Set_.vals s)) ≠ 0%nat) as Hne.
    { intros Hz%map_size_empty_inv. by rewrite Hz, lookup_empty in Hk. }
    lia.
  - done.
  - unfold Set_.Set__ at 1 3. simpl. f_equal.
    change (match Set_.vals (Set_.Set__ key s) with
            | Some vs => vs
            | None => ∅
            end) with (<[key := tt]> (match Set_.vals s with
                                      | Some vs => vs
                                      | None => ∅
                                      end)).
    by rewrite insert_insert_eq.
Qed.

(** X16.  A decode of a Set that succeeds replaces the set: afterwards the
    members are the elements that were decoded and nothing else, whatever
    the set held before, the size is the number of different elements, and
    the version has gone up by one.  [UnmarshalJSON] and [BinaryDecode]
    alike. *)
Theorem Set_decode_replaces
    (K : Type) `(Countable K)
    (decode : string → list K * option error)
    (data : string) (vv : list K) (s : Set_.Set_ K) :
  decode data = (vv, None) →
  Set_.UnmarshalJSON decode data s = Set_.BinaryDecode decode data s ∧
  (Set_.UnmarshalJSON decode data s).2 = None ∧
  (∀ key : K, Set_.Exists key (Set_.UnmarshalJSON decode data s).1
              = bool_decide (key ∈ vv)) ∧
  Set_.Size (Set_.UnmarshalJSON decode data s).1 = Z.of_nat (length (remove_dups vv)) ∧
  Set_.Version (Set_.UnmarshalJSON decode data s).1 = incr64 (Set_.Version s).
Proof.
  intros Hdec. unfold Set_.UnmarshalJSON, Set_.BinaryDecode. rewrite Hdec. simpl.
  split; [done|]. split; [done|]. split; [|split; [|done]].
  - intros key. apply Exists_after_decode.
  - rewrite Set_Size_size. simpl. by rewrite sliceToMap_size.
Qed.

(** X17.  The JSON round trip of a Set.  When the keys encode and the decoder
    reads back the keys that were written, decoding into any set, empty or
    not, gives a set with the same members and the same size as the
    original. *)
Theorem Set_JSON_round_trip
    (K : Type) `(Countable K)
    (json_Marshal : option (list K) → string * option error)
    (json_Unmarshal : string → list K * option error)
    (s t : Set_.Set_ K) (ord : list (K * unit)) (data : string) :
  traversal (Set_.vals s) ord →
  reads_back_keys json_Marshal json_Unmarshal (Set_.Values ord s) →
  Set_.MarshalJSON json_Marshal ord s = (data, None) →
  (Set_.UnmarshalJSON json_Unmarshal data t).2 = None ∧
  (∀ key : K, Set_.Exists key (Set_.UnmarshalJSON json_Unmarshal data t).1
              = Set_.Exists key s) ∧
  Set_.Size (Set_.UnmarshalJSON json_Unmarshal data t).1 = Set_.Size s.
Proof.
  intros Hord Hcodec Henc.
  destruct (Hcodec data Henc) as (vv & Hread & Hvv).
  unfold Set_.UnmarshalJSON. rewrite Hread. simpl.
  assert (vv ≡ₚ (map_to_list (default ∅ (Set_.vals s))).*1) as Hkeys.
  { rewrite Hvv. unfold Set_.Values, mapKeys, traversal in *.
    destruct (Set_.vals s); simpl in *; [by rewrite Hord|].
    by rewrite map_to_list_empty. }
  split; [done|]. split.
  - intros key. rewrite Exists_after_decode, Set_Exists_lookup.
    apply bool_decide_ext. rewrite Hkeys, list_elem_of_fmap. split.
    + intros [[k []] [-> Hin%elem_of_map_to_list]]. by eexists.
    + intros [[] Hk]. exists (key, tt). split; [done|]. by apply elem_of_map_to_list.
  - rewrite !Set_Size_size. simpl. f_equal.
    assert (NoDup vv) as Hnd by (rewrite Hkeys; apply NoDup_fst_map_to_list).
    rewrite sliceToMap_size, (remove_dups_length_NoDup vv Hnd).
    by rewrite Hkeys, length_fmap, length_map_to_list.
Qed.

(** X18.  [Clear] of a Set leaves storage that is empty, not nil: the set has no
    member and [Values] is an empty slice, and a [Delete] that follows adds
    one more to the version.  [PopAll] leaves nil storage: [Values] is nil
    and a [Delete] that follows changes nothing. *)
Theorem Set_Clear_and_PopAll
    (K : Type) `(Countable K) (s : Set_.Set_ K) (key : K) (ord : list (K * unit)) :
  (Set_.Size (Set_.Clear s) = 0 ∧
   Set_.Exists key (Set_.Clear s) = false ∧
   Set_.Values [] (Set_.Clear s) = Some [] ∧
   Set_.Version (Set_.Clear s) = incr64 (Set_.Version s) ∧
   Set_.Version (Set_.Delete key (Set_.Clear s)) = incr64 (incr64 (Set_.Version s))) ∧
  ((Set_.PopAll ord s).1 = Set_.Values ord s ∧
   Set_.Size (Set_.PopAll ord s).2 = 0 ∧
   Set_.Exists key (Set_.PopAll ord s).2 = false ∧
   Set_.Values [] (Set_.PopAll ord s).2 = None ∧
   Set_.Version (Set_.PopAll ord s).2 = incr64 (Set_.Version s) ∧
   Set_.Delete key (Set_.PopAll ord s).2 = (Set_.PopAll ord s).2).
Proof.
  unfold Set_.Size, Set_.Exists, Set_.Delete, Set_.Clear, Set_.PopAll, Set_.Values, len.
  simpl. rewrite map_size_empty, lookup_empty. repeat split.
Qed.

(** The keys a traversal lists are the members, each once. *)
Lemma Set_traversal_keys {K : Type} `{Countable K}
    (s : Set_.Set_ K) (ord : list (K * unit)) :
  traversal (Set_.vals s) ord →
  NoDup (ord.*1) ∧
  (∀ key : K, key ∈ ord.*1 ↔ Set_.Exists key s = true) ∧
  Z.of_nat (length (ord.*1)) = Set_.Size s.
Proof.
  intros Hord. pose proof (traversal_length _ _ Hord) as Hlen.
  unfold traversal in Hord. split; [|split].
  - rewrite Hord. apply NoDup_fst_map_to_list.
  - intros key. rewrite Set_Exists_lookup, bool_decide_eq_true, Hord, list_elem_of_fmap.
    split.
    + intros [[k []] [-> Hin%elem_of_map_to_list]]. by eexists.
    + intros [[] Hk]. exists (key, tt). split; [done|]. by apply elem_of_map_to_list.
  - by rewrite length_fmap.
Qed.

(** X19.  [Values] and [PopAll] hand out every member once and nothing else, as
    many elements as the size; the slice is nil exactly when the storage is
    nil. *)
Theorem Set_Values_and_PopAll_list_members
    (K : Type) `(Countable K) (s : Set_.Set_ K) (ord : list (K * unit)) :
  traversal (Set_.vals s) ord →
  (Set_.PopAll ord s).1 = Set_.Values ord s ∧
  NoDup (default [] (Set_.Values ord s)) ∧
  (∀ key : K, key ∈ default [] (Set_.Values ord s) ↔ Set_.Exists key s = true) ∧
  Z.of_nat (length (default [] (Set_.Values ord s))) = Set_.Size s ∧
  (Set_.Values ord s = None ↔ Set_.vals s = None).
Proof.
  intros Hord. destruct (Set_traversal_keys s ord Hord) as (Hnd & Hin & Hlen).
  split; [done|].
  unfold Set_.Values, mapKeys, Set_.Exists, Set_.Size, len in *.
  destruct (Set_.vals s) as [vs|]; simpl in *.
  - split; [done|]. split; [done|]. split; [done|]. done.
  - split; [apply NoDup_nil_2|]. split; [|done].
    intros key. split; [by intros ?%elem_of_nil|done].
Qed.

(** X20.  [Pop] on a set with a member returns a member, the first of the
    traversal, and removes just that one: it is no member afterwards, every
    other key is a member as before, the size drops by one and the version
    goes up by one. *)
Theorem Set_Pop_removes_one_member
    (K : Type) `(Countable K) (zK : Zero K) (s : Set_.Set_ K) (ord : list (K * unit)) :
  traversal (Set_.vals s) ord →
  0 < Set_.Size s →
  ∃ (key : K) (rest : list (K * unit)),
    ord = (key, tt) :: rest ∧
    (Set_.Pop ord s).1 = key ∧
    Set_.Exists key s = true ∧
    Set_.Exists key (Set_.Pop ord s).2 = false ∧
    (∀ key' : K, key' ≠ key →
       Set_.Exists key' (Set_.Pop ord s).2 = Set_.Exists key' s) ∧
    Set_.Size (Set_.Pop ord s).2 = Set_.Size s - 1 ∧
    Set_.Version (Set_.Pop ord s).2 = incr64 (Set_.Version s).
Proof.
  intros Hord Hpos. pose proof (traversal_length _ _ Hord) as Hlen.
  fold (Set_.Size s) in Hlen.
  destruct ord as [|[key []] rest]; [simpl in Hlen; lia|].
  pose proof (traversal_lookup _ _ 0 key tt Hord eq_refl) as Hkey.
  exists key, rest.
  destruct s as [v [vs|]]; simpl in *; [|by rewrite lookup_empty in Hkey].
  unfold Set_.Pop, Set_.Exists, Set_.Size, Set_.Version in *. simpl in *.
  rewrite Hkey, lookup_delete_eq. simpl.
  split; [done|]. split; [done|]. split; [done|]. split; [done|].
  split; [|split; [|done]].
  - intros key' Hne. by rewrite lookup_delete_ne.
  - rewrite map_size_delete, Hkey. assert (size vs ≠ 0%nat) by lia. lia.
Qed.

(** X21.  On a set with no member [Pop] returns the zero key and changes
    nothing, [Random] returns the zero key whatever number is drawn,
    [Values] holds no element, and [String] is the text of an empty JSON
    array. *)
Theorem Set_empty_set
    (K : Type) `(Countable K) (zK : Zero K)
    (s : Set_.Set_ K) (ord : list (K * unit)) (n : Z) :
  Set_.Size s = 0 →
  traversal (Set_.vals s) ord →
  Set_.Pop ord s = (zero, s) ∧
  Set_.Random n ord s = Returned zero ∧
  default [] (Set_.Values ord s) = [] ∧
  Set_.Strings ord s = [] ∧
  Set_.String ord s = "[]"%string ∧
  (∀ key : K, Set_.Exists key s = false).
Proof.
  intros Hz Hord. pose proof (traversal_length _ _ Hord) as Hlen.
  fold (Set_.Size s) in Hlen.
  destruct ord as [|kv rest]; [|simpl in Hlen; lia].
  assert (∀ key : K, Set_.Exists key s = false) as Hnone.
  { intros key. rewrite Set_Exists_lookup. rewrite Set_Size_size in Hz.
    assert (default ∅ (Set_.vals s) = ∅) as -> by (apply map_size_empty_inv; lia).
    by rewrite lookup_empty. }
  unfold Set_.String, Set_.Strings, Set_.Values, mapKeys, Set_.Random, Set_.Pop.
  unfold Set_.Size in Hz. rewrite Hz. simpl.
  by destruct (Set_.vals s).
Qed.

(** X22.  [Strings] has one element for each member, and the elements are the
    decimal numbers 0, 1, ... in this order, whatever the members are;
    [String] is the JSON array of these numbers as strings. *)
Theorem Set_Strings_count_positions
    (K : Type) `(Countable K) (s : Set_.Set_ K) (ord : list (K * unit)) :
  traversal (Set_.vals s) ord →
  Z.of_nat (length (Set_.Strings ord s)) = Set_.Size s ∧
  (∀ i : nat, (Z.of_nat i < Set_.Size s) →
     Set_.Strings ord s !! i = Some (pretty (Z.of_nat i))) ∧
  Set_.String ord s
  = "[" +:+ join "," ((λ i : nat, json_quote (pretty (Z.of_nat i)))
                        <$> seq 0 (Z.to_nat (Set_.Size s))) +:+ "]".
Proof.
  intros Hord. pose proof (traversal_length _ _ Hord) as Hlen.
  fold (Set_.Size s) in Hlen.
  unfold Set_.String. rewrite (Strings_are_indices ord s Hord).
  split; [|split].
  - rewrite length_fmap, length_seq. lia.
  - intros i Hi. rewrite list_lookup_fmap, lookup_seq_lt by lia. done.
  - unfold encString, json_Marshal_strings. by rewrite <- list_fmap_compose.
Qed.

(** * Instances of the further properties *)

(** X3 at the key ["b"] of the store that holds ["a": 1]. *)
Lemma Map_absent_and_empty_witness :
  Map.Exists "b" Examples.only_a = false ∧ Map.Get "b" Examples.only_a = 0.
Proof.
  split; [reflexivity|].
  exact (proj1 (Map_absent_and_empty string _ Z _ Examples.only_a) "b"%string eq_refl).
Defined.

(** X5 at the store of two entries. *)
Lemma Map_Pop_removes_one_entry_witness :
  0 < Map.Len Examples.abc_def ∧
  ∃ (key : string) (value : Z) (rest : list (string * Z)),
    Examples.def_abc_order = (key, value) :: rest ∧
    (Map.Pop Examples.def_abc_order Examples.abc_def).1 = (key, value) ∧
    Map.Len (Map.Pop Examples.def_abc_order Examples.abc_def).2
    = Map.Len Examples.abc_def - 1.
Proof.
  split; [reflexivity|].
  destruct (Map_Pop_removes_one_entry string _ Z _ _ Examples.abc_def
              Examples.def_abc_order)
    as (key & value & rest & Hord & Hpop & _ & _ & _ & _ & Hlen & _).
  - two_entry_traversal.
  - reflexivity.
  - exists key, value, rest. split; [exact Hord|]. split; [exact Hpop|exact Hlen].
Defined.

(** X6 at a store that was cleared. *)
Lemma Map_empty_store_witness :
  Map.Len (Map.Clear Examples.only_a) = 0 ∧
  Map.Pop [] (Map.Clear Examples.only_a) = (("", 0), Map.Clear Examples.only_a) ∧
  Map.Random 5 [] (Map.Clear Examples.only_a) = Returned (EmptyString, 0).
Proof.
  split; [reflexivity|].
  destruct (Map_empty_store string _ Z _ _ (Map.Clear Examples.only_a) [] 5)
    as (Hpop & Hrandom & _).
  - reflexivity.
  - two_entry_traversal.
  - by split.
Defined.

(** X7 at the store of two entries. *)
Lemma Map_Keys_and_Values_witness :
  NoDup (default [] (Map.Keys Examples.def_abc_order Examples.abc_def)) ∧
  Z.of_nat (length (Map.Values Examples.def_abc_order Examples.abc_def))
  = Map.Len Examples.abc_def.
Proof.
  destruct (Map_Keys_and_Values string _ Z _ Examples.abc_def Examples.def_abc_order)
    as (Hnd & _ & _ & Hlen & _).
  - two_entry_traversal.
  - by split.
Defined.

(** X8 at the text [abc], which is not JSON. *)
Lemma Map_decode_always_bumps_version_witness :
  Fragment.read_map "abc" = JInvalid "json: invalid input"%string ∧
  Map.UnmarshalJSON Fragment.read_map "abc" Examples.only_a
  = ({| Map.ver := 2; Map.vals := Map.vals Examples.only_a |},
     Some "json: invalid input"%string).
Proof.
  split; [reflexivity|].
  exact (proj2 (proj2 (proj2 (proj2 (proj2
           (Map_decode_always_bumps_version string _ Z Fragment.read_map
              Fragment.gob_Decode "abc" Examples.only_a)))))
           "json: invalid input"%string eq_refl).
Defined.

(** X9 at the text [{"b":2}] and the store that holds ["a": 1]. *)
Lemma Map_UnmarshalJSON_effect_witness :
  Fragment.read_map Examples.b_text = JObject [("b"%string, 2)] None ∧
  ("a"%string ∉ [("b"%string, 2)].*1) ∧
  Map.Exists "a" (Map.UnmarshalJSON Fragment.read_map Examples.b_text Examples.only_a).1
  = Map.Exists "a" Examples.only_a ∧
  Map.Get "b" (Map.UnmarshalJSON Fragment.read_map Examples.b_text Examples.only_a).1 = 2.
Proof.
  assert ("a"%string ∉ [("b"%string, 2)].*1) as Hnotin.
  { intros [Heq|Hin]%elem_of_cons; [discriminate Heq|by apply elem_of_nil in Hin]. }
  destruct (proj2 (Map_UnmarshalJSON_effect string _ Z _ Fragment.read_map
                     Examples.b_text Examples.only_a) [("b"%string, 2)] None eq_refl)
    as (_ & _ & Hother & Hmember).
  split; [reflexivity|]. split; [done|]. split.
  - exact (proj1 (Hother "a"%string Hnotin)).
  - exact (proj2 (Hmember "b"%string 2 [] [] eq_refl (not_elem_of_nil _))).
Defined.

(** X11 at the store of two entries and at a new store. *)
Lemma Map_String_and_MarshalJSON_witness :
  Map.vals Examples.abc_def ≠ None ∧
  Map.String Fragment.Marshal_map Examples.abc_def
  = (Map.MarshalJSON Fragment.Marshal_map Examples.def_abc_order Examples.abc_def).1 ∧
  Map.String Fragment.Marshal_map (Map.zero_Map (K := string) (T := Z)) = "null"%string ∧
  Map.MarshalJSON Fragment.Marshal_map [] (Map.zero_Map (K := string) (T := Z))
  = ("{}"%string, None).
Proof.
  split; [done|]. split; [|split].
  - apply (Map_String_and_MarshalJSON string _ Z Fragment.Marshal_map
             Examples.abc_def Examples.def_abc_order); [two_entry_traversal|done].
  - apply (proj1 (proj1 (proj2 (Map_String_and_MarshalJSON string _ Z
             Fragment.Marshal_map Map.zero_Map [] ltac:(two_entry_traversal))) eq_refl)).
  - apply (proj2 (proj1 (proj2 (Map_String_and_MarshalJSON string _ Z
             Fragment.Marshal_map Map.zero_Map [] ltac:(two_entry_traversal))) eq_refl)).
Defined.

(** X12 at the store of two entries with the number 1 drawn. *)
Lemma Map_RandomKey_and_RandomValue_witness :
  (0 ≤ 1 < Map.Len Examples.abc_def) ∧
  ∃ (key : string) (value : Z),
    Map.RandomKey 1 Examples.def_abc_order Examples.abc_def = Returned key ∧
    Map.RandomValue 1 Examples.def_abc_order Examples.abc_def = Returned value.
Proof.
  split; [split; [discriminate|reflexivity]|].
  destruct (Map_RandomKey_and_RandomValue string _ Z _ _ Examples.abc_def
              Examples.def_abc_order 1) as (key & value & Hk & Hv & _).
  - two_entry_traversal.
  - split; [discriminate|reflexivity].
  - exists key, value. split; [exact Hk|exact Hv].
Defined.

(** X16 at the text [["x","x"]] decoded into the set of ["abc"]. *)
Lemma Set_decode_replaces_witness :
  Fragment.Unmarshal_strings ("[" +:+ Fragment.q "x" +:+ "," +:+ Fragment.q "x" +:+ "]")
  = (["x"%string; "x"%string], None) ∧
  Set_.Exists "abc"
    (Set_.UnmarshalJSON Fragment.Unmarshal_strings
       ("[" +:+ Fragment.q "x" +:+ "," +:+ Fragment.q "x" +:+ "]") Examples.set_abc).1
  = false ∧
  Set_.Size
    (Set_.UnmarshalJSON Fragment.Unmarshal_strings
       ("[" +:+ Fragment.q "x" +:+ "," +:+ Fragment.q "x" +:+ "]") Examples.set_abc).1
  = 1.
Proof.
  split; [reflexivity|].
  destruct (Set_decode_replaces string _ Fragment.Unmarshal_strings
              ("[" +:+ Fragment.q "x" +:+ "," +:+ Fragment.q "x" +:+ "]")
              ["x"%string; "x"%string] Examples.set_abc eq_refl)
    as (_ & _ & Hex & Hsize & _).
  split; [exact (Hex "abc"%string)|exact Hsize].
Defined.

(** X17 at the set of ["x"] and ["y"], decoded into the set of ["abc"]. *)
Lemma Set_JSON_round_trip_witness :
  Set_.MarshalJSON json_Marshal_keys Examples.yx_order Examples.set_xy
  = ("[" +:+ Fragment.q "y" +:+ "," +:+ Fragment.q "x" +:+ "]", None) ∧
  Set_.Size
    (Set_.UnmarshalJSON Fragment.Unmarshal_strings
       ("[" +:+ Fragment.q "y" +:+ "," +:+ Fragment.q "x" +:+ "]") Examples.set_abc).1
  = Set_.Size Examples.set_xy.
Proof.
  split; [reflexivity|].
  apply (Set_JSON_round_trip string _ json_Marshal_keys Fragment.Unmarshal_strings
           Examples.set_xy Examples.set_abc Examples.yx_order).
  - two_entry_traversal.
  - intros data Hdata. vm_compute in Hdata. injection Hdata as <-.
    exists ["y"%string; "x"%string]. split; vm_compute; reflexivity.
  - reflexivity.
Defined.

(** X19 at the set of two keys. *)
Lemma Set_Values_and_PopAll_witness :
  (Set_.PopAll Examples.yx_order Examples.set_xy).1
  = Set_.Values Examples.yx_order Examples.set_xy ∧
  Z.of_nat (length (default [] (Set_.Values Examples.yx_order Examples.set_xy)))
  = Set_.Size Examples.set_xy.
Proof.
  destruct (Set_Values_and_PopAll_list_members string _ Examples.set_xy Examples.yx_order)
    as (Hpop & _ & _ & Hlen & _).
  - two_entry_traversal.
  - split; [exact Hpop|exact Hlen].
Defined.

(** X20 at the set of two keys. *)
Lemma Set_Pop_removes_one_member_witness :
  0 < Set_.Size Examples.set_xy ∧
  ∃ (key : string) (rest : list (string * unit)),
    Examples.yx_order = (key, tt) :: rest ∧
    (Set_.Pop Examples.yx_order Examples.set_xy).1 = key.
Proof.
  split; [reflexivity|].
  destruct (Set_Pop_removes_one_member string _ _ Examples.set_xy
              Examples.yx_order ltac:(two_entry_traversal) eq_refl)
    as (key & rest & Hord & Hpop & _).
  exists key, rest. split; [exact Hord|exact Hpop].
Defined.

(** X21 at a set that was cleared. *)
Lemma Set_empty_set_witness :
  Set_.Size (Set_.Clear Examples.set_xy) = 0 ∧
  Set_.Pop [] (Set_.Clear Examples.set_xy) = (EmptyString, Set_.Clear Examples.set_xy) ∧
  Set_.Random 3 [] (Set_.Clear Examples.set_xy) = Returned EmptyString.
Proof.
  split; [reflexivity|].
  destruct (Set_empty_set string _ _ (Set_.Clear Examples.set_xy) [] 3 eq_refl
              ltac:(two_entry_traversal)) as (Hpop & Hrandom & _).
  split; [exact Hpop|exact Hrandom].
Defined.

(** X22 at the set of two keys. *)
Lemma Set_Strings_count_positions_witness :
  Z.of_nat (length (Set_.Strings Examples.yx_order Examples.set_xy))
  = Set_.Size Examples.set_xy ∧
  Set_.Strings Examples.yx_order Examples.set_xy !! 1%nat = Some "1"%string.
Proof.
  destruct (Set_Strings_count_positions string _ Examples.set_xy Examples.yx_order)
    as (Hlen & Hpos & _).
  - two_entry_traversal.
  - split; [exact Hlen|]. exact (Hpos 1%nat eq_refl).
Defined.

(** X13 at the key ["b"] and the store that holds ["a": 1]. *)
Lemma Map_Set_then_Delete_witness :
  Map.Exists "b" Examples.only_a = false ∧
  Map.vals (Map.Delete "b" (Map.Set_ "b" 2 Examples.only_a))
  = Some (default ∅ (Map.vals Examples.only_a)) ∧
  Map.Version (Map.Delete "b" (Map.Set_ "b" 2 Examples.only_a)) = 3%N.
Proof.
  split; [reflexivity|].
  destruct (Map_Set_then_Delete string _ Z _ Examples.only_a "b"%string 2 eq_refl)
    as (Hvals & _ & _ & Hver).
  split; [exact Hvals|exact Hver].
Defined.
